(** * Export Waveforms snuffling: a shallow embedding of [ExportWaveforms.call]

    Source: [src/export_waveforms.py].

    Python values are modelled as follows.
    - [str] is [string]; the network, station, location and channel codes
      and the format names are ASCII, so a character is an [ascii].
    - [float] is the kernel's binary64 [float] ([PrimFloat]), with the
      IEEE comparison operators Python uses.
    - a numpy sample array is an [ndarray]: the samples together with the
      dtype, because numpy does its arithmetic in the dtype of the array.
    - a pyrocko trace object is a reference ([ref]) into a store
      ([gmap ref Trace]); the setters and [set_ydata] mutate the store, so
      two positions of a list that hold the same object see one state.
    - an exception is a value of [exn], threaded by the monad [M]. *)

From Stdlib Require Import ZArith Ascii String Floats.
From stdpp Require Import gmap strings list.

Open Scope string_scope.

(** ** Strings *)

Module Str.

(** [s[:n]] *)
Fixpoint take (n : nat) (s : string) : string :=
  match n, s with
  | S n', String c s' => String c (take n' s')
  | _, _ => EmptyString
  end.

(** [s.startswith(p)] *)
Fixpoint startswith (p s : string) : bool :=
  match p, s with
  | EmptyString, _ => true
  | String a p', String b s' => Ascii.eqb a b && startswith p' s'
  | String _ _, EmptyString => false
  end.

(** [p in s] *)
Fixpoint contains (p s : string) : bool :=
  startswith p s ||
  match s with
  | EmptyString => false
  | String _ s' => contains p s'
  end.

(** the last character of [s], if any *)
Fixpoint last (s : string) : option ascii :=
  match s with
  | EmptyString => None
  | String c EmptyString => Some c
  | String _ s' => last s'
  end.

(** [s.endswith(c)] for a one-character suffix [c] *)
Definition endswith_char (s : string) (c : ascii) : bool :=
  match last s with
  | Some d => Ascii.eqb d c
  | None => false
  end.

(** [c.lower()] on one ASCII character: 'A'..'Z' are shifted by 32. *)
Definition lower_char (c : ascii) : ascii :=
  let n := nat_of_ascii c in
  if (65 <=? n)%nat && (n <=? 90)%nat then ascii_of_nat (n + 32) else c.

(** [s.lower()] *)
Fixpoint lower (s : string) : string :=
  match s with
  | EmptyString => EmptyString
  | String c s' => String (lower_char c) (lower s')
  end.

End Str.

(** ** Sample arrays *)

(** A one-dimensional numpy array with its dtype. An integer sample is its
    value, in the range of the dtype; a [float32] sample is the binary64
    value equal to it. These are the dtypes for which numpy gives the
    arithmetic of lines 122 and 123 the same result in all its releases
    (for [int8] and [int16] times a Python float the dtype of the result
    depends on the release). *)
Inductive ndarray :=
| Int32 (samples : list Z)
| Int64 (samples : list Z)
| Float32 (samples : list float)
| Float64 (samples : list float).

(** [len(y)] *)
Definition arr_size (y : ndarray) : nat :=
  match y with
  | Int32 l | Int64 l => length l
  | Float32 l | Float64 l => length l
  end.

(** ** Traces *)

Record Trace := mkTrace {
  network : string;
  station : string;
  location : string;
  channel : string;
  deltat : float;
  tmin : float;
  ydata : ndarray
}.

Definition set_network (tr : Trace) (v : string) : Trace :=
  mkTrace v (station tr) (location tr) (channel tr) (deltat tr) (tmin tr) (ydata tr).
Definition set_station (tr : Trace) (v : string) : Trace :=
  mkTrace (network tr) v (location tr) (channel tr) (deltat tr) (tmin tr) (ydata tr).
Definition set_location (tr : Trace) (v : string) : Trace :=
  mkTrace (network tr) (station tr) v (channel tr) (deltat tr) (tmin tr) (ydata tr).
Definition set_channel (tr : Trace) (v : string) : Trace :=
  mkTrace (network tr) (station tr) (location tr) v (deltat tr) (tmin tr) (ydata tr).
Definition set_ydata (tr : Trace) (v : ndarray) : Trace :=
  mkTrace (network tr) (station tr) (location tr) (channel tr) (deltat tr) (tmin tr) v.

#[global] Instance Trace_inhabited : Inhabited Trace :=
  populate (mkTrace "" "" "" "" 0%float 0%float (Float64 [])).

(** ** Configuration ([setup]) *)

(** The choices of the [Format] parameter. *)
Definition format_choices : list string := ["mseed"; "text"; "sac"; "yaff"].

(** The parameters bound on the snuffling object. *)
Record Config := mkConfig {
  format : string;
  tinc : option float;
  save_stations : bool;
  apply_filter : bool
}.

(** ** Channel codes (lines 79-87) *)

Definition truncate_codes (tr : Trace) : Trace :=
  let tr := if (2 <? String.length (network tr))%nat
            then set_network tr (Str.take 2 (network tr)) else tr in
  let tr := if (5 <? String.length (station tr))%nat
            then set_station tr (Str.take 5 (station tr)) else tr in
  let tr := if (2 <? String.length (location tr))%nat
            then set_location tr (Str.take 2 (location tr)) else tr in
  let tr := if (3 <? String.length (channel tr))%nat
            then set_channel tr (Str.take 3 (channel tr)) else tr in
  tr.

Definition normalize_codes (fmt : string) (tr : Trace) : Trace :=
  if String.eqb fmt "mseed" then truncate_codes tr else tr.

(** ** Output file name template (lines 60-70) *)

Definition template (tinc : option float) : string :=
  match tinc with
  | Some _ => "trace_%n.%s.%l.%c_%(tmin_us)s"
  | None => "trace_%n.%s.%l.%c"
  end.

Definition default_output_filename (tinc : option float) (fmt : string) : string :=
  if String.eqb fmt "text"
  then template tinc +:+ ".dat"
  else (template tinc +:+ ".") +:+ fmt.

(** ** Exceptions, the store and the monad of [call] *)

(** The exceptions that end a call: the two Python raises itself, the one
    [self.fail] raises, and whatever a collaborator raises. *)
Inductive exn :=
| UnboundLocalError (name : string)
| ZeroDivisionError
| SnufflingCallFailed (reason : string)
| Foreign (detail : string).

Inductive result (A : Type) :=
| Ok (a : A)
| Raise (e : exn).
Arguments Ok {A} a.
Arguments Raise {A} e.

(** A trace object is known by its identity. *)
Definition ref := nat.

(** The calls the code makes on the filtering primitives of a trace, with
    the arguments as the source writes them. *)
Inductive filter_call :=
| Bandpass (order : nat) (corner_hp corner_lp : float)
| Lowpass (order : nat) (corner : float) (demean : bool)
| Highpass (order : nat) (corner : float) (demean : bool).

(** What the call does to its collaborators, in the order it does it.
    [EvRotate a b] marks that the body of the pairing test (lines 122-125)
    ran for the objects [a] and [b]. *)
Inductive event :=
| EvFilter (tr : ref) (c : filter_call)
| EvRotate (a b : ref)
| EvSave (traces : list ref) (values : list Trace)
         (filename fmt : string) (overwrite : bool)
| EvFail (reason : string)
| EvLogInfo (msg arg : string)
| EvDumpStations (stations : list string) (filename : string).

Record World := mkWorld {
  heap : gmap ref Trace;
  trail : list event
}.

Definition M (A : Type) : Type := World → result A * World.

#[global] Instance M_ret : MRet M := λ A a w, (Ok a, w).
#[global] Instance M_bind : MBind M := λ A B f m w,
  match m w with
  | (Ok a, w') => f a w'
  | (Raise e, w') => (Raise e, w')
  end.

Definition raise {A} (e : exn) : M A := λ w, (Raise e, w).

Definition lift {A} (r : result A) : M A := λ w, (r, w).

Definition emit (e : event) : M unit :=
  λ w, (Ok tt, mkWorld (heap w) (trail w ++ [e])).

Definition get_trace (r : ref) : M Trace := λ w, (Ok (heap w !!! r), w).

Definition put_trace (r : ref) (tr : Trace) : M unit :=
  λ w, (Ok tt, mkWorld (<[r := tr]> (heap w)) (trail w)).

(** [a.get_ydata()] and [a.set_ydata(v)] on the object [r] *)
Definition get_ydata (r : ref) : M ndarray :=
  tr ← get_trace r; mret (ydata tr).

Definition put_ydata (r : ref) (v : ndarray) : M unit :=
  tr ← get_trace r; put_trace r (set_ydata tr v).

(** Reading a local variable that may not have been assigned. *)
Definition read_local {A} (name : string) (v : option A) : M A :=
  match v with
  | Some a => mret a
  | None => raise (UnboundLocalError name)
  end.

(** [for x in l: body x] *)
Fixpoint for_each {A} (body : A → M unit) (l : list A) : M unit :=
  match l with
  | [] => mret tt
  | x :: l' => body x;; for_each body l'
  end.

(** ** Numbers *)

Open Scope float_scope.

(** [x / y] on Python floats: a zero divisor raises. *)
Definition py_div (x y : float) : result float :=
  if PrimFloat.eqb y 0 then Raise ZeroDivisionError else Ok (x / y).

(** The literals [0.001] and [0.01], and [math.pi], as binary64 values. *)
Definition lit_0_001 : float := 0x1.0624dd2f1a9fcp-10.
Definition lit_0_01 : float := 0x1.47ae147ae147bp-7.
Definition math_pi : float := 0x1.921fb54442d18p+1.

(** ** numpy arithmetic on sample arrays *)

(** The value a [bits]-bit two's-complement integer operation leaves. *)
Definition wrap (bits : Z) (z : Z) : Z :=
  ((z + 2 ^ (bits - 1)) mod 2 ^ bits - 2 ^ (bits - 1))%Z.

(** An integer as a binary64 value, rounded to nearest, ties to even
    (exact up to 53 bits). *)
Definition float_of_Z (z : Z) : float :=
  SF2Prim (binary_normalize 53 1024 z 0 false).

(** A binary64 value rounded to binary32 (nearest, ties to even, overflow
    to infinity, gradual underflow), as a binary64 value again. *)
Definition round32 (x : float) : float :=
  match Prim2SF x with
  | S754_finite s m e =>
      match binary_normalize 24 128 (cond_Zopp s (Zpos m)) e s with
      | S754_finite s' m' e' =>
          SF2Prim (binary_normalize 53 1024 (cond_Zopp s' (Zpos m')) e' s')
      | y => SF2Prim y
      end
  | _ => x
  end.

(** The samples as binary64 values ([y.astype(float64)]). *)
Definition arr_values (y : ndarray) : list float :=
  match y with
  | Int32 l | Int64 l => float_of_Z <$> l
  | Float32 l | Float64 l => l
  end.

(** [-y]: the negation stays in the dtype of [y], so the least integer of
    the dtype is its own negation. *)
Definition arr_neg (y : ndarray) : ndarray :=
  match y with
  | Int32 l => Int32 ((λ z, wrap 32 (- z)) <$> l)
  | Int64 l => Int64 ((λ z, wrap 64 (- z)) <$> l)
  | Float32 l => Float32 ((λ x, - x) <$> l)
  | Float64 l => Float64 ((λ x, - x) <$> l)
  end.

(** [y * c] for a Python float [c] that is a cosine or a sine (so within
    the range of [float32]): an integer array becomes [float64]; a
    [float32] array stays [float32], [c] is rounded to [float32] first and
    the product is rounded to [float32] (the binary64 product of two
    binary32 values is exact). *)
Definition arr_scale (y : ndarray) (c : float) : ndarray :=
  match y with
  | Int32 l | Int64 l => Float64 ((λ z, float_of_Z z * c) <$> l)
  | Float32 l => Float32 ((λ x, round32 (x * round32 c)) <$> l)
  | Float64 l => Float64 ((λ x, x * c) <$> l)
  end.

(** [y + z]: the sum of two [float32] arrays is [float32], of two integer
    arrays the wider integer dtype; every other sum is [float64]. Only ever
    applied to arrays of one size (line 120 is tested first). *)
Definition arr_add (y z : ndarray) : ndarray :=
  match y, z with
  | Int32 l, Int32 k => Int32 (zip_with (λ a b, wrap 32 (a + b)) l k)
  | Int32 l, Int64 k | Int64 l, Int32 k | Int64 l, Int64 k =>
      Int64 (zip_with (λ a b, wrap 64 (a + b)) l k)
  | Float32 l, Float32 k => Float32 (zip_with (λ a b, round32 (a + b)) l k)
  | _, _ => Float64 (zip_with PrimFloat.add (arr_values y) (arr_values z))
  end.

(** ** The viewer and the collaborators *)

Record Viewer := mkViewer {
  lowpass : option float;
  highpass : option float;
  rotate : float;
  stations : list string
}.

(** What [call] consumes as black boxes: the filtering primitives of a
    trace (the new samples, or an exception), [math.cos] and [math.sin],
    the file dialog behind [self.output_filename] (it raises when the user
    cancels), and [io.save] ([Some detail] is a [FileSaveError] whose
    [str] is [detail]). *)
Record Env := mkEnv {
  run_filter : filter_call → Trace → result ndarray;
  math_cos : float → float;
  math_sin : float → float;
  output_filename : string → string → result string;
  io_save : list Trace → string → string → bool → option string
}.

(** ** The pairing test (lines 111-120) *)

Definition is_pair (a b : Trace) : bool :=
  String.eqb (network a) (network b)
  && String.eqb (station a) (station b)
  && String.eqb (location a) (location b)
  && ((Str.endswith_char (Str.lower (channel a)) "n"
       && Str.endswith_char (Str.lower (channel b)) "e")
      || (Str.endswith_char (channel a) "1"
          && Str.endswith_char (channel b) "2"))
  && (abs (deltat a - deltat b) <? deltat a * lit_0_001)
  && (abs (tmin a - tmin b) <? deltat a * lit_0_01)
  && (arr_size (ydata a) =? arr_size (ydata b))%nat.

(** ** [ExportWaveforms.call] *)

Section Call.

Context (E : Env) (cfg : Config) (viewer : Viewer).

(** One call on a filtering primitive of the object [r]. *)
Definition invoke_filter (r : ref) (c : filter_call) : M unit :=
  emit (EvFilter r c);;
  tr ← get_trace r;
  y ← lift (run_filter E c tr);
  put_trace r (set_ydata tr y).

(** Lines 79-87, on the object [r]. *)
Definition normalize (r : ref) : M unit :=
  tr ← get_trace r;
  put_trace r (normalize_codes (format cfg) tr).

(** Lines 89-100, on the object [r]. *)
Definition filter_trace (r : ref) : M unit :=
  if apply_filter cfg then
    match lowpass viewer, highpass viewer with
    | Some lp, Some hp =>
        invoke_filter r (Bandpass 2 hp lp)
    | Some lp, None =>
        tr ← get_trace r;
        nyquist ← lift (py_div 0.5 (deltat tr));
        if lp <? nyquist
        then invoke_filter r (Lowpass 4 lp false)
        else mret tt
    | None, Some hp =>
        tr ← get_trace r;
        nyquist ← lift (py_div 0.5 (deltat tr));
        if hp <? nyquist
        then invoke_filter r (Highpass 4 hp false)
        else mret tt
    | None, None => mret tt
    end
  else mret tt.

(** Lines 78-103: the body of [for tr in trs], which ends by appending
    [tr] to [traces_save]. *)
Fixpoint trace_loop (trs : list ref) (traces_save : list ref)
  : M (list ref) :=
  match trs with
  | [] => mret traces_save
  | tr :: trs' =>
      normalize tr;;
      filter_trace tr;;
      trace_loop trs' (traces_save ++ [tr])
  end.

(** Lines 76-103: the loop over the batches of the chopper. The local
    [traces_save] is unassigned ([None]) until the first batch. *)
Fixpoint batch_loop (batches : list (list ref))
    (traces_save : option (list ref)) : M (option (list ref)) :=
  match batches with
  | [] => mret traces_save
  | trs :: batches' =>
      ts ← trace_loop trs [];
      batch_loop batches' (Some ts)
  end.

(** Lines 122-125: all four reads of the sample arrays come before the
    two writes. *)
Definition rotate_pair (cphi sphi : float) (a b : ref) : M unit :=
  emit (EvRotate a b);;
  ya ← get_ydata a;
  yb ← get_ydata b;
  let aydata := arr_add (arr_scale ya cphi) (arr_scale yb sphi) in
  ya' ← get_ydata a;
  yb' ← get_ydata b;
  let bydata := arr_add (arr_scale (arr_neg ya') sphi) (arr_scale yb' cphi) in
  put_ydata a aydata;;
  put_ydata b bydata.

(** Lines 110-125 for one [a]. *)
Definition rotate_inner (cphi sphi : float) (traces_save : list ref)
    (a : ref) : M unit :=
  for_each (λ b,
    ta ← get_trace a;
    tb ← get_trace b;
    if is_pair ta tb then rotate_pair cphi sphi a b else mret tt)
    traces_save.

(** Lines 109-125. *)
Definition rotate_loops (cphi sphi : float) (traces_save : list ref)
  : M unit :=
  for_each (rotate_inner cphi sphi traces_save) traces_save.

(** Lines 105-125, after the loop over the batches. *)
Definition rotate_stage (traces_save : option (list ref)) : M unit :=
  if negb (rotate viewer =? 0) && apply_filter cfg then
    let phi := rotate viewer / 180 * math_pi in
    let cphi := math_cos E phi in
    let sphi := math_sin E phi in
    ts ← read_local "traces_save" traces_save;
    rotate_loops cphi sphi ts
  else mret tt.

(** Modelled from the spec: [Snuffling.fail] belongs to pyrocko and is
    not part of the source; the failure policy (section 4.5, 7) has it
    show the reason to the user and stop the call, which is an exception
    carrying the reason. *)
Definition fail {A} (reason : string) : M A :=
  emit (EvFail reason);;
  raise (SnufflingCallFailed reason).

(** Lines 127-134. The arguments of [io.save] are evaluated inside the
    [try]; only [FileSaveError] is handled. *)
Definition save_stage (out_filename : string)
    (traces_save : option (list ref)) : M unit :=
  ts ← read_local "traces_save" traces_save;
  values ← (λ w, (Ok ((λ r, heap w !!! r) <$> ts), w));
  emit (EvSave ts values out_filename (format cfg) true);;
  match io_save E values out_filename (format cfg) true with
  | None => mret tt
  | Some detail => fail detail
  end.

(** Lines 57-142. [self.cleanup()] only removes what an earlier call
    drew in the viewer. *)
Definition call (batches : list (list ref)) : M unit :=
  out_filename ← lift (output_filename E "Template for output files"
                         (default_output_filename (tinc cfg) (format cfg)));
  traces_save ← batch_loop batches None;
  rotate_stage traces_save;;
  save_stage out_filename traces_save;;
  emit (EvLogInfo "saved waveforms to %s" out_filename);;
  if save_stations cfg then
    fn ← lift (output_filename E "Save Stations" "stations.pf");
    emit (EvDumpStations (stations viewer) fn);;
    emit (EvLogInfo "saved stations to %s" fn)
  else mret tt.

(** A whole call, from the traces [h] the chopper hands out. *)
Definition run_call (batches : list (list ref)) (h : gmap ref Trace)
  : result unit * World :=
  call batches (mkWorld h []).

End Call.

(** ** Reading the trail *)

(** The pairs rotated, in the order they were. *)
Definition rotations (t : list event) : list (ref * ref) :=
  omap (λ e, match e with EvRotate a b => Some (a, b) | _ => None end) t.

Definition is_save (e : event) : bool :=
  match e with EvSave _ _ _ _ _ => true | _ => false end.

(** The invocations of [io.save]. *)
Definition saves (t : list event) : list event := List.filter is_save t.

(** The batches handed to [io.save]. *)
Definition saved_batches (t : list event) : list (list ref) :=
  omap (λ e, match e with EvSave ts _ _ _ _ => Some ts | _ => None end) t.

(** The filter calls made on the object [r]. *)
Definition filter_calls (r : ref) (t : list event) : list filter_call :=
  omap (λ e, match e with
             | EvFilter r' c => if (r' =? r)%nat then Some c else None
             | _ => None
             end) t.

(** In how many rotations the object [r] took part. *)
Definition participations (r : ref) (rots : list (ref * ref)) : nat :=
  length (List.filter (λ p, (p.1 =? r)%nat || (p.2 =? r)%nat) rots).

(** ** The pairing rule in the words of the specification *)

(** [s] ends with [suffix]; [s] ends in the character [c]. *)
Definition has_suffix (s suffix : string) : Prop :=
  ∃ pre, s = pre +:+ suffix.

Definition ends_in (s : string) (c : ascii) : Prop :=
  has_suffix s (String c "").

(** [p] occurs in [s]. *)
Definition occurs_in (p s : string) : Prop :=
  ∃ pre post, s = pre +:+ p +:+ post.

Definition spec_pair (a b : Trace) : Prop :=
  network a = network b
  ∧ station a = station b
  ∧ location a = location b
  ∧ (((ends_in (channel a) "N" ∨ ends_in (channel a) "n")
      ∧ (ends_in (channel b) "E" ∨ ends_in (channel b) "e"))
     ∨ (ends_in (channel a) "1" ∧ ends_in (channel b) "2"))
  ∧ (abs (deltat a - deltat b) <? deltat a * lit_0_001) = true
  ∧ (abs (tmin a - tmin b) <? deltat a * lit_0_01) = true
  ∧ arr_size (ydata a) = arr_size (ydata b).

(** What the pairing test reads of a trace; rotation changes none of it. *)
Definition shape (tr : Trace)
  : string * string * string * string * float * float * nat :=
  (network tr, station tr, location tr, channel tr, deltat tr, tmin tr,
   arr_size (ydata tr)).

(** The pairing test on the objects [a] and [b] of the store [h]. *)
Definition pair_in (h : gmap ref Trace) (p : ref * ref) : bool :=
  is_pair (h !!! p.1) (h !!! p.2).

(** Two stores whose traces look alike to the pairing test. *)
Definition same_shapes (h h' : gmap ref Trace) : Prop :=
  ∀ r, shape (h' !!! r) = shape (h !!! r).

(** ** The rotation in the words of the specification *)



(** The store once the pair [p] is rotated: both new sample arrays are
    computed from the arrays the two traces have in [h], and nothing but
    the samples of the two traces changes. *)
Definition rotated (cphi sphi : float) (h : gmap ref Trace) (p : ref * ref)
  : gmap ref Trace :=
  let ya := ydata (h !!! p.1) in
  let yb := ydata (h !!! p.2) in
  <[p.2 := set_ydata (h !!! p.2)
             (arr_add (arr_scale (arr_neg ya) sphi) (arr_scale yb cphi))]>
    (<[p.1 := set_ydata (h !!! p.1)
                (arr_add (arr_scale ya cphi) (arr_scale yb sphi))]> h).

(** ** Applying a filter, in the words of the specification *)

(** The outcome of applying the filter [c] to the trace [r]: the samples
    of [r] are what the filter returns and nothing else changes, or the
    filter fails and no trace changes; either way the call is on
    record. *)
Definition filtered (E : Env) (r : ref) (c : filter_call) (w : World)
  : result unit * World :=
  match run_filter E c (heap w !!! r) with
  | Ok y =>
      (Ok tt, mkWorld (<[r := set_ydata (heap w !!! r) y]> (heap w))
                      (trail w ++ [EvFilter r c]))
  | Raise e => (Raise e, mkWorld (heap w) (trail w ++ [EvFilter r c]))
  end.

(** A computation that never reaches [io.save]. *)
Definition quiet {A} (m : M A) : Prop :=
  ∀ w, saves (trail (m w).2) = saves (trail w).

(** The batch [traces_save] is bound to when the loop over the batches is
    over: the last one, if there was any. *)
Definition final_batch (batches : list (list ref)) : option (list ref) :=
  last batches.

(** ** Sample data *)

Module Sample.

(** A north, an east and a second east component of one station. *)
Definition bhn : Trace := mkTrace "XX" "AAA" "" "BHN" lit_0_01 0 (Float64 [1; 2]).
Definition bhe : Trace := mkTrace "XX" "AAA" "" "BHE" lit_0_01 0 (Float64 [3; 4]).
Definition bhe' : Trace := mkTrace "XX" "AAA" "" "BHE" lit_0_01 0 (Float64 [5; 6]).
Definition long_codes : Trace :=
  mkTrace "ABCDE" "STATION" "LOC" "CHAN" lit_0_01 0 (Float64 [1]).
(** Sampled at 10 Hz ([0x1.999999999999ap-4] is [0.1]): Nyquist is 5 Hz. *)
Definition slow : Trace :=
  mkTrace "XX" "AAA" "" "BHZ" 0x1.999999999999ap-4 0 (Float64 [1; 2; 3]).

Definition store : gmap ref Trace :=
  <[0%nat := bhn]> (<[1%nat := bhe]> (<[2%nat := bhe']> (<[3%nat := slow]> ∅))).

(** Filters that halve every sample, a quarter turn ([cos = 0],
    [sin = 1]), a dialog that accepts the proposed name, a disk that
    takes every file. *)
Definition env : Env :=
  mkEnv (λ _ tr, Ok (Float64 ((λ x, x * 0.5) <$> arr_values (ydata tr))))
        (λ _, 0) (λ _, 1)
        (λ _ proposed, Ok proposed)
        (λ _ _ _ _, None).

(** The same, with a disk that takes no file. *)
Definition env_full_disk : Env :=
  mkEnv (run_filter env) (math_cos env) (math_sin env)
        (output_filename env)
        (λ _ _ _ _, Some "disk full"%string).

Definition cfg : Config := mkConfig "mseed" None false true.
Definition quarter_turn : Viewer := mkViewer None None 90 [].
Definition lowpass_10 : Viewer := mkViewer (Some 10) None 0 [].
Definition lowpass_2 : Viewer := mkViewer (Some 2) None 0 [].
Definition turn_and_lowpass : Viewer := mkViewer (Some 2) None 90 [].

(** The chopper hands out the north and the first east component in one
    batch and the second east component in the next. *)
Definition two_batches : list (list ref) := [[0; 1]; [2]]%nat.

End Sample.

(** ** Worlds before and after a computation *)

(** Whatever world [m] starts from, the world it ends in is related to it
    by [R]. *)
Definition respects {A} (R : relation World) (m : M A) : Prop :=
  ∀ w, R w (m w).2.

(** The trail grows by events of the kind [Q] only. *)
Definition adds (Q : event → Prop) : relation World :=
  λ w w', ∀ e, e ∈ trail w' → e ∈ trail w ∨ Q e.

(** No trace object changes. *)
Definition same_heap : relation World :=
  λ w w', ∀ r, heap w' !!! r = heap w !!! r.

(** The samples and the timing of every trace stay as they are. *)
Definition same_signal : relation World :=
  λ w w', ∀ r, ydata (heap w' !!! r) = ydata (heap w !!! r)
               ∧ deltat (heap w' !!! r) = deltat (heap w !!! r)
               ∧ tmin (heap w' !!! r) = tmin (heap w !!! r).

(** The four codes of a trace, and the limits miniSEED puts on them. *)
Definition codes (tr : Trace) : string * string * string * string :=
  (network tr, station tr, location tr, channel tr).

Definition codes_fit (tr : Trace) : Prop :=
  (String.length (network tr) ≤ 2 ∧ String.length (station tr) ≤ 5
   ∧ String.length (location tr) ≤ 2 ∧ String.length (channel tr) ≤ 3)%nat.

(** The codes of every trace stay as they are. *)
Definition same_codes : relation World :=
  λ w w', ∀ r, codes (heap w' !!! r) = codes (heap w !!! r).

(** A trace whose codes fit keeps codes that fit. *)
Definition fit_kept : relation World :=
  λ w w', ∀ r, codes_fit (heap w !!! r) → codes_fit (heap w' !!! r).

(** The kinds of events. *)
Definition is_filter_event (e : event) : Prop :=
  match e with EvFilter _ _ => True | _ => False end.
Definition is_rotate_event (e : event) : Prop :=
  match e with EvRotate _ _ => True | _ => False end.
Definition is_save_event (e : event) : Prop :=
  match e with EvSave _ _ _ _ _ => True | _ => False end.
Definition is_fail_event (e : event) : Prop :=
  match e with EvFail _ => True | _ => False end.
Definition is_log_event (e : event) : Prop :=
  match e with EvLogInfo _ _ => True | _ => False end.
Definition is_dump_event (e : event) : Prop :=
  match e with EvDumpStations _ _ => True | _ => False end.

(** Lines 105: the condition under which the rotation loops run. *)
Definition rotation_gate (cfg : Config) (viewer : Viewer) : bool :=
  negb (rotate viewer =? 0) && apply_filter cfg.

(** Lines 136-142: what [call] does once [io.save] has returned. *)
Definition after_save (E : Env) (cfg : Config) (viewer : Viewer)
    (out_filename : string) : M unit :=
  emit (EvLogInfo "saved waveforms to %s" out_filename);;
  if save_stations cfg then
    fn ← lift (output_filename E "Save Stations" "stations.pf");
    emit (EvDumpStations (stations viewer) fn);;
    emit (EvLogInfo "saved stations to %s" fn)
  else mret tt.

(** The filter call lines 89-100 make on a trace when they make one. *)
Definition chosen_filter (viewer : Viewer) : option filter_call :=
  match lowpass viewer, highpass viewer with
  | Some lp, Some hp => Some (Bandpass 2 hp lp)
  | Some lp, None => Some (Lowpass 4 lp false)
  | None, Some hp => Some (Highpass 4 hp false)
  | None, None => None
  end.

(** How often the object [r] occurs in a list of traces. *)
Definition occurrences (r : ref) (l : list ref) : nat :=
  length (List.filter (Nat.eqb r) l).

(** The filter calls made on every trace stay as they are. *)
Definition same_filter_calls : relation World :=
  λ w w', ∀ r, filter_calls r (trail w') = filter_calls r (trail w).

(** ** [ExportWaveforms.setup] (lines 42-55) *)

(** The parameters a snuffling registers with [add_parameter]. *)
Inductive parameter :=
| Choice (name ident default : string) (choices : list string)
| Param (name ident : string) (default : option float)
        (minimum maximum : float) (low_is_none : bool)
| Switch (name ident : string) (default : bool).

Record Panel := mkPanel {
  panel_name : string;
  parameters : list parameter;
  live_update : bool
}.

(** [0x1.999999999999ap-4] is the literal [0.1]. *)
Definition setup : Panel :=
  mkPanel "Export Waveforms"
    [Choice "Format" "format" "mseed" format_choices;
     Param "Time length limit for output files" "tinc" None
       0x1.999999999999ap-4 86400 true;
     Switch "Save Station Meta" "save_stations" false;
     Switch "Apply Filters/Rotation" "apply_filter" false]
    false.

(** [add_parameter] belongs to pyrocko: it binds the attribute named by
    the identifier of the parameter to its default. These are the values
    [call] reads when the user has changed nothing. *)
Fixpoint choice_default (ident : string) (ps : list parameter)
  : option string :=
  match ps with
  | [] => None
  | Choice _ i d _ :: ps' =>
      if String.eqb i ident then Some d else choice_default ident ps'
  | _ :: ps' => choice_default ident ps'
  end.

Fixpoint param_default (ident : string) (ps : list parameter)
  : option (option float) :=
  match ps with
  | [] => None
  | Param _ i d _ _ _ :: ps' =>
      if String.eqb i ident then Some d else param_default ident ps'
  | _ :: ps' => param_default ident ps'
  end.

Fixpoint switch_default (ident : string) (ps : list parameter)
  : option bool :=
  match ps with
  | [] => None
  | Switch _ i d :: ps' =>
      if String.eqb i ident then Some d else switch_default ident ps'
  | _ :: ps' => switch_default ident ps'
  end.

Definition initial_config (p : Panel) : option Config :=
  fmt ← choice_default "format" (parameters p);
  ti ← param_default "tinc" (parameters p);
  ss ← switch_default "save_stations" (parameters p);
  af ← switch_default "apply_filter" (parameters p);
  Some (mkConfig fmt ti ss af).

(** ** More sample data *)

Module Edge.

(** A trace with a sampling interval of zero. *)
Definition no_rate : Trace := mkTrace "XX" "AAA" "" "BHZ" 0 0 (Float64 [1; 2]).

(** A vertical component: it pairs with nothing. *)
Definition bhz : Trace := mkTrace "XX" "AAA" "" "BHZ" lit_0_01 0 (Float64 [7; 8]).

Definition store : gmap ref Trace :=
  <[4%nat := no_rate]> (<[5%nat := bhz]> Sample.store).

(** The sample store with a trace whose codes are all too long for
    miniSEED. *)
Definition store_long : gmap ref Trace :=
  <[6%nat := Sample.long_codes]> Sample.store.

(** The station dump is asked for. *)
Definition cfg_stations : Config := mkConfig "mseed" None true true.

(** Nothing is filtered or rotated; the format is not miniSEED. *)
Definition cfg_raw : Config := mkConfig "sac" None false false.

(** Both corner frequencies are set in the viewer. *)
Definition band : Viewer := mkViewer (Some 2) (Some 0.5) 0 [].

(** Only the highpass corner is set. *)
Definition highpass_1 : Viewer := mkViewer None (Some 1) 0 [].

(** The values [math.cos] and [math.sin] have at [90 / 180 * math.pi]:
    [0x1.1a62633145c07p-54] is 6.123233995736766e-17. *)
Definition env_quarter : Env :=
  mkEnv (run_filter Sample.env)
        (λ _, 0x1.1a62633145c07p-54) (λ _, 1)
        (output_filename Sample.env) (io_save Sample.env).

(** A north and an east component as miniSEED stores them, in 32-bit
    integers; the first sample of the north component is the least
    integer of the dtype. *)
Definition bhn_int32 : Trace :=
  mkTrace "XX" "AAA" "" "BHN" lit_0_01 0 (Int32 [-2147483648; 1]%Z).
Definition bhe_int32 : Trace :=
  mkTrace "XX" "AAA" "" "BHE" lit_0_01 0 (Int32 [5; 7]%Z).

(** The same two components in single precision. *)
Definition bhn_float32 : Trace :=
  mkTrace "XX" "AAA" "" "BHN" lit_0_01 0 (Float32 [3; 1]).
Definition bhe_float32 : Trace :=
  mkTrace "XX" "AAA" "" "BHE" lit_0_01 0 (Float32 [5; 7]).

(** The values [math.cos] and [math.sin] have at [30 / 180 * math.pi]:
    0.8660254037844387 and 0.49999999999999994. *)
Definition env_30 : Env :=
  mkEnv (run_filter Sample.env)
        (λ _, 0x1.bb67ae8584cabp-1) (λ _, 0x1.fffffffffffffp-2)
        (output_filename Sample.env) (io_save Sample.env).
Definition turn_30 : Viewer := mkViewer None None 30 [].

Definition store_int32 : gmap ref Trace :=
  <[7%nat := bhn_int32]> (<[8%nat := bhe_int32]> ∅).

Definition store_float32 : gmap ref Trace :=
  <[7%nat := bhn_float32]> (<[8%nat := bhe_float32]> ∅).

End Edge.

(** * Properties *)

Open Scope list_scope.

(** ** Strings *)

Lemma append_cons (c : ascii) (s t : string) :
  String c s +:+ t = String c (s +:+ t).
Proof. reflexivity. Qed.

Lemma append_nil (t : string) : "" +:+ t = t.
Proof. reflexivity. Qed.

Lemma append_nil_r (s : string) : s +:+ "" = s.
Proof.
  induction s as [|c s IH]; [done|]. rewrite append_cons. by f_equal.
Qed.

Lemma take_length (n : nat) (s : string) :
  String.length (Str.take n s) = (n `min` String.length s)%nat.
Proof.
  revert s; induction n as [|n IH]; intros [|c s]; simpl; auto.
Qed.

Lemma take_prefix (n : nat) (s : string) :
  ∃ rest, s = Str.take n s +:+ rest.
Proof.
  revert s; induction n as [|n IH]; intros s.
  - exists s. by destruct s.
  - destruct s as [|c s]; [by exists ""|].
    destruct (IH s) as [rest Hrest]. exists rest.
    cbn [Str.take]. rewrite append_cons. by f_equal.
Qed.

Lemma take_all (n : nat) (s : string) :
  (String.length s ≤ n)%nat → Str.take n s = s.
Proof.
  revert s; induction n as [|n IH]; intros [|c s]; simpl; intros H; auto.
  - lia.
  - f_equal. apply IH. lia.
Qed.

Lemma take_fixed (n : nat) (s : string) :
  Str.take n s = s → (String.length s ≤ n)%nat.
Proof.
  intros H. rewrite <- H, take_length. lia.
Qed.

Lemma take_take (n : nat) (s : string) :
  Str.take n (Str.take n s) = Str.take n s.
Proof.
  apply take_all. rewrite take_length. lia.
Qed.

Lemma startswith_spec (p s : string) :
  Str.startswith p s = true ↔ ∃ post, s = p +:+ post.
Proof.
  revert s; induction p as [|a p IH]; intros s; simpl.
  - split; [intros _; by exists s | done].
  - destruct s as [|b s].
    + split; [done | intros [post H]; discriminate H].
    + rewrite andb_true_iff, IH, Ascii.eqb_eq. split.
      * intros [-> [post ->]]. by exists post.
      * intros [post H]. injection H as -> ->. eauto.
Qed.

Lemma contains_spec (p s : string) :
  Str.contains p s = true ↔ occurs_in p s.
Proof.
  unfold occurs_in. induction s as [|c s IH].
  - simpl. rewrite orb_false_r, startswith_spec. split.
    + intros [post H]. by exists "", post.
    + intros [[|c pre] [post H]]; [by exists post | discriminate H].
  - cbn [Str.contains]. rewrite orb_true_iff, IH, startswith_spec. split.
    + intros [[post H] | (pre & post & H)].
      * by exists "", post.
      * exists (String c pre), post. rewrite append_cons. by rewrite H.
    + intros [[|c' pre] [post H]].
      * left. by exists post.
      * right. injection H as -> ->. by exists pre, post.
Qed.

(** ** Channel codes *)

Lemma truncate_codes_fields (tr : Trace) :
  truncate_codes tr =
    mkTrace (Str.take 2 (network tr)) (Str.take 5 (station tr))
            (Str.take 2 (location tr)) (Str.take 3 (channel tr))
            (deltat tr) (tmin tr) (ydata tr).
Proof.
  destruct tr as [n s l c d t y]. unfold truncate_codes.
  cbn [network station location channel].
  destruct (Nat.ltb_spec 2 (String.length n)); unfold set_network;
    cbn [network station location channel deltat tmin ydata];
  destruct (Nat.ltb_spec 5 (String.length s)); unfold set_station;
    cbn [network station location channel deltat tmin ydata];
  destruct (Nat.ltb_spec 2 (String.length l)); unfold set_location;
    cbn [network station location channel deltat tmin ydata];
  destruct (Nat.ltb_spec 3 (String.length c)); unfold set_channel;
    cbn [network station location channel deltat tmin ydata];
  repeat match goal with
  | H : (String.length ?x ≤ ?k)%nat |- _ =>
      rewrite (take_all k x H); clear H
  end; reflexivity.
Qed.

Lemma truncate_codes_fixed (tr : Trace) :
  truncate_codes tr = tr ↔
    (String.length (network tr) ≤ 2 ∧ String.length (station tr) ≤ 5
     ∧ String.length (location tr) ≤ 2 ∧ String.length (channel tr) ≤ 3)%nat.
Proof.
  rewrite truncate_codes_fields. destruct tr as [n s l c d t y].
  cbn [network station location channel deltat tmin ydata]. split.
  - intros H. injection H as Hn Hs Hl Hc.
    auto using take_fixed.
  - intros (Hn & Hs & Hl & Hc). by rewrite !take_all.
Qed.

(** C5. Codes are truncated if and only if the format is [mseed]: then the
    network keeps its first 2 characters, the station its first 5, the
    location its first 2 and the channel its first 3, each within its
    limit and a prefix of what it was; a code within its limit, and every
    code under another format, stays as it is; the samples and times are
    not touched; normalizing twice is normalizing once. *)
Theorem normalize_codes_spec (fmt : string) (tr : Trace) :
  let tr' := normalize_codes fmt tr in
  tr' = (if String.eqb fmt "mseed"
         then mkTrace (Str.take 2 (network tr)) (Str.take 5 (station tr))
                      (Str.take 2 (location tr)) (Str.take 3 (channel tr))
                      (deltat tr) (tmin tr) (ydata tr)
         else tr)
  ∧ (tr' ≠ tr ↔
       fmt = "mseed"
       ∧ (2 < String.length (network tr) ∨ 5 < String.length (station tr)
          ∨ 2 < String.length (location tr)
          ∨ 3 < String.length (channel tr))%nat)
  ∧ (fmt = "mseed" →
       (String.length (network tr') = 2 `min` String.length (network tr)
        ∧ String.length (station tr') = 5 `min` String.length (station tr)
        ∧ String.length (location tr') = 2 `min` String.length (location tr)
        ∧ String.length (channel tr') = 3 `min` String.length (channel tr))%nat)
  ∧ ((∃ rest, network tr = network tr' +:+ rest)
     ∧ (∃ rest, station tr = station tr' +:+ rest)
     ∧ (∃ rest, location tr = location tr' +:+ rest)
     ∧ (∃ rest, channel tr = channel tr' +:+ rest))
  ∧ normalize_codes fmt tr' = tr'.
Proof.
  cbv zeta. unfold normalize_codes.
  destruct (String.eqb_spec fmt "mseed") as [-> | Hfmt].
  - rewrite !truncate_codes_fields.
    cbn [network station location channel deltat tmin ydata].
    split_and!; try apply take_length; try apply take_prefix.
    + reflexivity.
    + split.
      * intros Hne. split; [done|].
        destruct (decide (String.length (network tr) ≤ 2)%nat); [|lia].
        destruct (decide (String.length (station tr) ≤ 5)%nat); [|lia].
        destruct (decide (String.length (location tr) ≤ 2)%nat); [|lia].
        destruct (decide (String.length (channel tr) ≤ 3)%nat); [|lia].
        exfalso. apply Hne. rewrite <- truncate_codes_fields.
        by apply truncate_codes_fixed.
      * intros [_ Hlong] Heq. rewrite <- truncate_codes_fields in Heq.
        apply truncate_codes_fixed in Heq. lia.
    + intros _. split_and!; apply take_length.
    + by rewrite !take_take.
  - split_and!; try done.
    + split; [done | by intros [? _]].
    + exists "". by rewrite append_nil_r.
    + exists "". by rewrite append_nil_r.
    + exists "". by rewrite append_nil_r.
    + exists "". by rewrite append_nil_r.
Qed.

(** ** Output file name template *)

Lemma append_assoc (a b c : string) : (a +:+ b) +:+ c = a +:+ (b +:+ c).
Proof.
  induction a as [|x a IH]; [done|]. rewrite !append_cons. by f_equal.
Qed.

Lemma occurs_in_append (p s t : string) :
  occurs_in p s → occurs_in p (s +:+ t).
Proof.
  intros (pre & post & ->). exists pre, (post +:+ t).
  by rewrite !append_assoc.
Qed.

Lemma default_output_filename_parts (ti : option float) (fmt : string) :
  default_output_filename ti fmt
  = template ti +:+ (if String.eqb fmt "text" then ".dat" else "." +:+ fmt).
Proof.
  unfold default_output_filename.
  destruct (String.eqb fmt "text"); [done | apply append_assoc].
Qed.

(** C9. The proposed file name contains [%n], [%s], [%l] and [%c]; it
    contains the microsecond start time placeholder [%(tmin_us)s] when
    [tinc] is not [None] and, for each format of the [Format] choice, only
    then; it ends with [.dat] for the text format and with a dot and the
    format name for every other one. *)
Theorem default_output_filename_spec (ti : option float) (fmt : string) :
  let name := default_output_filename ti fmt in
  occurs_in "%n" name ∧ occurs_in "%s" name
  ∧ occurs_in "%l" name ∧ occurs_in "%c" name
  ∧ (ti ≠ None → occurs_in "%(tmin_us)s" name)
  ∧ (fmt ∈ format_choices → occurs_in "%(tmin_us)s" name → ti ≠ None)
  ∧ (fmt = "text" → has_suffix name ".dat")
  ∧ (fmt ≠ "text" → has_suffix name ("." +:+ fmt)).
Proof.
  intros name. unfold name. rewrite default_output_filename_parts.
  split_and!.
  1-4: apply occurs_in_append, contains_spec; by destruct ti.
  - intros Hti. apply occurs_in_append, contains_spec.
    by destruct ti.
  - intros Hfmt H%contains_spec Hti. subst ti.
    unfold format_choices in Hfmt.
    rewrite !elem_of_cons, elem_of_nil in Hfmt.
    by destruct Hfmt as [-> | [-> | [-> | [-> | []]]]].
  - intros ->. by exists (template ti).
  - intros Hne. exists (template ti).
    by destruct (String.eqb_spec fmt "text").
Qed.

(** ** The pairing test *)

Lemma last_lower (s : string) :
  Str.last (Str.lower s) = Str.lower_char <$> Str.last s.
Proof.
  induction s as [|c s IH]; [done|].
  destruct s as [|d s]; [done|]. exact IH.
Qed.

Lemma last_append (pre : string) (c : ascii) :
  Str.last (pre +:+ String c "") = Some c.
Proof.
  induction pre as [|d pre IH]; [done|].
  rewrite append_cons. cbn [Str.last]. rewrite IH.
  by destruct pre.
Qed.

Lemma last_Some (s : string) (c : ascii) :
  Str.last s = Some c ↔ ends_in s c.
Proof.
  split.
  - induction s as [|d s IH]; [done|].
    destruct s as [|d' s].
    + intros [= ->]. by exists "".
    + intros H. destruct (IH H) as [pre Hpre].
      exists (String d pre). rewrite append_cons. by rewrite <- Hpre.
  - intros [pre ->]. apply last_append.
Qed.

Lemma endswith_char_spec (s : string) (c : ascii) :
  Str.endswith_char s c = true ↔ ends_in s c.
Proof.
  unfold Str.endswith_char. rewrite <- last_Some.
  destruct (Str.last s) as [d|]; [|done].
  rewrite Ascii.eqb_eq. split; congruence.
Qed.

Lemma lower_char_is (c : ascii) :
  Ascii.eqb (Str.lower_char c) "n" = Ascii.eqb c "N" || Ascii.eqb c "n"
  ∧ Ascii.eqb (Str.lower_char c) "e" = Ascii.eqb c "E" || Ascii.eqb c "e".
Proof.
  destruct c as [[] [] [] [] [] [] [] []]; split; reflexivity.
Qed.

Lemma endswith_lower_n (s : string) :
  Str.endswith_char (Str.lower s) "n" = true ↔ ends_in s "N" ∨ ends_in s "n".
Proof.
  rewrite <- !endswith_char_spec. unfold Str.endswith_char.
  rewrite last_lower. destruct (Str.last s) as [d|]; cbn; [|intuition discriminate].
  rewrite (proj1 (lower_char_is d)). apply orb_true_iff.
Qed.

Lemma endswith_lower_e (s : string) :
  Str.endswith_char (Str.lower s) "e" = true ↔ ends_in s "E" ∨ ends_in s "e".
Proof.
  rewrite <- !endswith_char_spec. unfold Str.endswith_char.
  rewrite last_lower. destruct (Str.last s) as [d|]; cbn; [|intuition discriminate].
  rewrite (proj2 (lower_char_is d)). apply orb_true_iff.
Qed.

(** The test of lines 111-120 is the rule of the specification. *)
Lemma is_pair_spec (a b : Trace) : is_pair a b = true ↔ spec_pair a b.
Proof.
  unfold is_pair, spec_pair.
  rewrite !andb_true_iff, orb_true_iff, !andb_true_iff, !String.eqb_eq,
    Nat.eqb_eq, endswith_lower_n, endswith_lower_e, !endswith_char_spec.
  tauto.
Qed.

(** The suffix part of the test depends on the two channels alone; it fails
    for one channel against itself and holds in at most one direction. *)
Lemma suffix_test_asym (ca cb : string) :
  (Str.endswith_char (Str.lower ca) "n" && Str.endswith_char (Str.lower cb) "e")
  || (Str.endswith_char ca "1" && Str.endswith_char cb "2") = true →
  (Str.endswith_char (Str.lower cb) "n" && Str.endswith_char (Str.lower ca) "e")
  || (Str.endswith_char cb "1" && Str.endswith_char ca "2") = false.
Proof.
  unfold Str.endswith_char. rewrite !last_lower.
  destruct (Str.last ca) as [x|], (Str.last cb) as [y|]; cbn; try done.
  destruct (lower_char_is x) as [-> ->], (lower_char_is y) as [-> ->].
  destruct (Ascii.eqb_spec x "N"), (Ascii.eqb_spec x "n"),
    (Ascii.eqb_spec x "E"), (Ascii.eqb_spec x "e"),
    (Ascii.eqb_spec x "1"), (Ascii.eqb_spec x "2");
    subst; try discriminate; cbn;
  destruct (Ascii.eqb_spec y "N"), (Ascii.eqb_spec y "n"),
    (Ascii.eqb_spec y "E"), (Ascii.eqb_spec y "e"),
    (Ascii.eqb_spec y "1"), (Ascii.eqb_spec y "2");
    subst; try discriminate; cbn; done.
Qed.

Lemma is_pair_asym (a b : Trace) : is_pair a b = true → is_pair b a = false.
Proof.
  unfold is_pair. rewrite !andb_true_iff.
  intros [[[[_ Hsuffix] _] _] _].
  apply suffix_test_asym in Hsuffix. rewrite Hsuffix.
  by rewrite !andb_false_r.
Qed.

Lemma is_pair_irrefl (a : Trace) : is_pair a a = false.
Proof.
  destruct (is_pair a a) eqn:H; [|done].
  by rewrite (is_pair_asym a a H) in H.
Qed.

Lemma is_pair_shape (a a' b b' : Trace) :
  shape a = shape a' → shape b = shape b' → is_pair a b = is_pair a' b'.
Proof.
  unfold shape, is_pair. intros [= -> -> -> -> -> -> ->] [= -> -> -> -> -> -> ->].
  reflexivity.
Qed.

(** ** The monad *)

Lemma bind_ok {A B} (m : M A) (f : A → M B) (w w' : World) (a : A) :
  m w = (Ok a, w') → (m ≫= f) w = f a w'.
Proof. unfold mbind, M_bind. by intros ->. Qed.

Lemma bind_raise {A B} (m : M A) (f : A → M B) (w w' : World) (e : exn) :
  m w = (Raise e, w') → (m ≫= f) w = (Raise e, w').
Proof. unfold mbind, M_bind. by intros ->. Qed.

(** ** Rotation of one pair *)

Lemma rotate_pair_run (cphi sphi : float) (a b : ref) (w : World) :
  let ya := ydata (heap w !!! a) in
  let yb := ydata (heap w !!! b) in
  let h1 := <[a := set_ydata (heap w !!! a)
                    (arr_add (arr_scale ya cphi) (arr_scale yb sphi))]> (heap w) in
  rotate_pair cphi sphi a b w =
    (Ok tt,
     mkWorld (<[b := set_ydata (h1 !!! b)
                       (arr_add (arr_scale (arr_neg ya) sphi)
                                (arr_scale yb cphi))]> h1)
             (trail w ++ [EvRotate a b])).
Proof. reflexivity. Qed.

(** The sizes of the arrays numpy computes. *)
Lemma arr_size_values (y : ndarray) : length (arr_values y) = arr_size y.
Proof. destruct y; cbn; by rewrite ?length_fmap. Qed.

Lemma arr_size_scale (y : ndarray) (c : float) :
  arr_size (arr_scale y c) = arr_size y.
Proof. destruct y; cbn; by rewrite length_fmap. Qed.

Lemma arr_size_neg (y : ndarray) : arr_size (arr_neg y) = arr_size y.
Proof. destruct y; cbn; by rewrite length_fmap. Qed.

Lemma arr_size_add (y z : ndarray) :
  arr_size (arr_add y z) = (arr_size y `min` arr_size z)%nat.
Proof.
  destruct y, z; cbn; rewrite length_zip_with, ?length_fmap; done.
Qed.

(** numpy's arithmetic on a few arrays: the least integer of a dtype is
    its own negation, an integer array times a float is [float64], a
    [float32] array times a float (here 0.1) is rounded to single
    precision, as is the sum of two [float32] arrays, and an integer sum
    wraps around. *)
Lemma arr_samples :
  arr_neg (Int32 [-2147483648; 5; 0; 2147483647]%Z)
    = Int32 [-2147483648; -5; 0; -2147483647]%Z
  ∧ arr_neg (Int64 [-9223372036854775808; 5]%Z)
    = Int64 [-9223372036854775808; -5]%Z
  ∧ arr_scale (Int64 [9007199254740993; -9223372036854775808]%Z) 1
    = Float64 [9007199254740992; -0x1p+63]
  ∧ arr_scale (Float32 [3; 0x1.99999ap-4]) 0x1.999999999999ap-4
    = Float32 [0x1.333334p-2; 0x1.47ae16p-7]
  ∧ arr_add (Float32 [0x1.333334p-2]) (Float32 [0x1.47ae16p-7])
    = Float32 [0x1.3d70a4p-2]
  ∧ arr_add (Float32 [0x1.333334p-2]) (Int32 [1]%Z)
    = Float64 [0x1.4ccccdp+0]
  ∧ arr_add (Int32 [2147483647]%Z) (Int32 [1]%Z) = Int32 [-2147483648]%Z.
Proof. vm_compute. done. Qed.







Lemma arr_size_rotated_a (cphi sphi : float) (ya yb : ndarray) :
  arr_size ya = arr_size yb →
  arr_size (arr_add (arr_scale ya cphi) (arr_scale yb sphi)) = arr_size ya.
Proof. intros H. rewrite arr_size_add, !arr_size_scale. lia. Qed.

Lemma arr_size_rotated_b (cphi sphi : float) (ya yb : ndarray) :
  arr_size ya = arr_size yb →
  arr_size (arr_add (arr_scale (arr_neg ya) sphi) (arr_scale yb cphi))
  = arr_size yb.
Proof. intros H. rewrite arr_size_add, !arr_size_scale, arr_size_neg. lia. Qed.

Lemma shape_set_ydata (tr : Trace) (y : ndarray) :
  arr_size y = arr_size (ydata tr) → shape (set_ydata tr y) = shape tr.
Proof. unfold shape. cbn. by intros ->. Qed.

(** The world a rotation leaves, in the words of the specification. *)
Lemma rotate_pair_rotated (cphi sphi : float) (a b : ref) (w : World) :
  rotate_pair cphi sphi a b w =
    (Ok tt, mkWorld (rotated cphi sphi (heap w) (a, b))
                    (trail w ++ [EvRotate a b])).
Proof.
  rewrite rotate_pair_run. cbv zeta. unfold rotated. cbn [fst snd].
  do 3 f_equal.
  destruct (decide (a = b)) as [-> | Hab].
  - by rewrite lookup_total_insert_eq.
  - by rewrite lookup_total_insert_ne.
Qed.

Lemma rotated_shapes (cphi sphi : float) (h : gmap ref Trace) (a b : ref) :
  is_pair (h !!! a) (h !!! b) = true →
  same_shapes h (rotated cphi sphi h (a, b)).
Proof.
  intros Hpair r. unfold rotated. cbn [fst snd].
  assert (Hlen : arr_size (ydata (h !!! a)) = arr_size (ydata (h !!! b))).
  { apply is_pair_spec in Hpair. apply Hpair. }
  destruct (decide (r = b)) as [-> | Hrb].
  - rewrite lookup_total_insert_eq. apply shape_set_ydata.
    by apply arr_size_rotated_b.
  - rewrite lookup_total_insert_ne by done.
    destruct (decide (r = a)) as [-> | Hra].
    + rewrite lookup_total_insert_eq. apply shape_set_ydata.
      by apply arr_size_rotated_a.
    + by rewrite lookup_total_insert_ne.
Qed.

Lemma rotate_pair_shapes (cphi sphi : float) (a b : ref) (w : World) :
  is_pair (heap w !!! a) (heap w !!! b) = true →
  same_shapes (heap w) (heap (rotate_pair cphi sphi a b w).2).
Proof.
  intros Hpair. rewrite rotate_pair_rotated. cbn [snd heap].
  by apply rotated_shapes.
Qed.

(** ** The rotation loops *)

Lemma same_shapes_refl (h : gmap ref Trace) : same_shapes h h.
Proof. by intros r. Qed.

Lemma same_shapes_trans (h1 h2 h3 : gmap ref Trace) :
  same_shapes h1 h2 → same_shapes h2 h3 → same_shapes h1 h3.
Proof. intros H12 H23 r. by rewrite H23, H12. Qed.

Lemma pair_in_shapes (h h' : gmap ref Trace) (p : ref * ref) :
  same_shapes h h' → pair_in h' p = pair_in h p.
Proof. intros H. unfold pair_in. apply is_pair_shape; apply H. Qed.

Lemma for_each_cons {A} (body : A → M unit) (x : A) (l : list A) (w : World) :
  for_each body (x :: l) w =
    match body x w with
    | (Ok _, w') => for_each body l w'
    | (Raise e, w') => (Raise e, w')
    end.
Proof. reflexivity. Qed.

Lemma rotate_test_run (cphi sphi : float) (a b : ref) (w : World) :
  (ta ← get_trace a; tb ← get_trace b;
   if is_pair ta tb then rotate_pair cphi sphi a b else mret tt) w
  = if pair_in (heap w) (a, b) then rotate_pair cphi sphi a b w else (Ok tt, w).
Proof.
  unfold pair_in. cbn [fst snd].
  change ((ta ← get_trace a; tb ← get_trace b;
           if is_pair ta tb then rotate_pair cphi sphi a b else mret tt) w)
    with ((if is_pair (heap w !!! a) (heap w !!! b)
           then rotate_pair cphi sphi a b else mret tt) w).
  by destruct (is_pair _ _).
Qed.

Lemma rotate_inner_run (cphi sphi : float) (h0 : gmap ref Trace)
    (a : ref) (bs : list ref) (w : World) :
  same_shapes h0 (heap w) →
  ∃ w', rotate_inner cphi sphi bs a w = (Ok tt, w')
        ∧ same_shapes h0 (heap w')
        ∧ trail w' = trail w ++
            (EvRotate a <$> List.filter (λ b, pair_in h0 (a, b)) bs).
Proof.
  unfold rotate_inner. revert w. induction bs as [|b bs IH]; intros w Hw.
  - exists w. split_and!; [done | done | by rewrite app_nil_r].
  - rewrite for_each_cons, rotate_test_run. cbn [List.filter].
    rewrite (pair_in_shapes h0 (heap w)) by done.
    destruct (pair_in h0 (a, b)) eqn:Hpair.
    + rewrite rotate_pair_run. cbv zeta.
      assert (Hw' : same_shapes h0 (heap (rotate_pair cphi sphi a b w).2)).
      { eapply same_shapes_trans; [exact Hw|]. apply rotate_pair_shapes.
        by rewrite <- (pair_in_shapes h0 (heap w)) in Hpair. }
      rewrite rotate_pair_run in Hw'. cbv zeta in Hw'. cbn [snd] in Hw'.
      destruct (IH _ Hw') as (w' & Hrun & Hshape & Htrail).
      exists w'. split_and!; [exact Hrun | exact Hshape |].
      rewrite Htrail. cbn [trail fmap list_fmap]. by rewrite <- app_assoc.
    + destruct (IH w Hw) as (w' & Hrun & Hshape & Htrail). by exists w'.
Qed.

Lemma filter_pairs_with (f : ref * ref → bool) (a : ref) (bs : list ref) :
  List.filter f (map (λ b, (a, b)) bs)
  = map (λ b, (a, b)) (List.filter (λ b, f (a, b)) bs).
Proof.
  induction bs as [|b bs IH]; [done|]. cbn.
  destruct (f (a, b)); cbn; by rewrite IH.
Qed.

(** The pairs the two loops rotate are the pairs of [list_prod] that pass
    the test on the store the loops started from, in that order. *)
Lemma rotate_outer_run (cphi sphi : float) (h0 : gmap ref Trace)
    (outer ts : list ref) (w : World) :
  same_shapes h0 (heap w) →
  ∃ w', for_each (rotate_inner cphi sphi ts) outer w = (Ok tt, w')
        ∧ same_shapes h0 (heap w')
        ∧ trail w' = trail w ++
            ((λ p, EvRotate p.1 p.2) <$>
               List.filter (pair_in h0) (list_prod outer ts)).
Proof.
  revert w. induction outer as [|a outer IH]; intros w Hw.
  - exists w. split_and!; [done | done | by rewrite app_nil_r].
  - rewrite for_each_cons.
    destruct (rotate_inner_run cphi sphi h0 a ts w Hw)
      as (w1 & Hrun1 & Hshape1 & Htrail1).
    rewrite Hrun1.
    destruct (IH w1 Hshape1) as (w' & Hrun & Hshape & Htrail).
    exists w'. split_and!; [exact Hrun | exact Hshape |].
    rewrite Htrail, Htrail1. cbn [list_prod].
    rewrite List.filter_app, fmap_app, filter_pairs_with, <- app_assoc.
    do 2 f_equal. rewrite <- list_fmap_compose. done.
Qed.


Lemma rotations_of_rotations (ps : list (ref * ref)) :
  rotations ((λ p, EvRotate p.1 p.2) <$> ps) = ps.
Proof.
  induction ps as [|[a b] ps IH]; [done|]. cbn. f_equal. exact IH.
Qed.

Lemma rotate_loops_run (cphi sphi : float) (ts : list ref) (w : World) :
  ∃ w', rotate_loops cphi sphi ts w = (Ok tt, w')
        ∧ same_shapes (heap w) (heap w')
        ∧ trail w' = trail w ++
            ((λ p, EvRotate p.1 p.2) <$>
               List.filter (pair_in (heap w)) (list_prod ts ts)).
Proof.
  apply rotate_outer_run, same_shapes_refl.
Qed.

Lemma rotate_loops_rotations (cphi sphi : float) (ts : list ref)
    (h : gmap ref Trace) :
  rotations (trail (rotate_loops cphi sphi ts (mkWorld h [])).2)
  = List.filter (pair_in h) (list_prod ts ts).
Proof.
  destruct (rotate_loops_run cphi sphi ts (mkWorld h []))
    as (w' & Hrun & _ & Htrail).
  rewrite Hrun. cbn [snd]. rewrite Htrail.
  cbn [trail app]. apply rotations_of_rotations.
Qed.

(** *** The store and the trail the loops leave *)







(** *** What a run of rotations does to one trace *)

Lemma rotated_other (cphi sphi : float) (h : gmap ref Trace)
    (p : ref * ref) (r : ref) :
  r ≠ p.1 → r ≠ p.2 → rotated cphi sphi h p !!! r = h !!! r.
Proof. intros H1 H2. unfold rotated. by rewrite !lookup_total_insert_ne. Qed.

Lemma rotated_members (cphi sphi : float) (h : gmap ref Trace) (a b : ref) :
  a ≠ b →
  rotated cphi sphi h (a, b) !!! a
    = set_ydata (h !!! a)
        (arr_add (arr_scale (ydata (h !!! a)) cphi)
                 (arr_scale (ydata (h !!! b)) sphi))
  ∧ rotated cphi sphi h (a, b) !!! b
    = set_ydata (h !!! b)
        (arr_add (arr_scale (arr_neg (ydata (h !!! a))) sphi)
                 (arr_scale (ydata (h !!! b)) cphi)).
Proof.
  intros Hab. unfold rotated. cbn [fst snd]. split.
  - rewrite lookup_total_insert_ne by done. by rewrite lookup_total_insert_eq.
  - by rewrite lookup_total_insert_eq.
Qed.







Lemma NoDup_bool_filter {A} (f : A → bool) (l : list A) :
  NoDup l → NoDup (List.filter f l).
Proof. rewrite !NoDup_ListNoDup. apply List.NoDup_filter. Qed.

Lemma NoDup_list_prod (l l' : list ref) :
  NoDup l → NoDup l' → NoDup (list_prod l l').
Proof.
  intros Hl Hl'. induction Hl as [|a l Ha Hl IH]; [constructor|].
  cbn [list_prod]. apply NoDup_app. split_and!.
  - change (NoDup ((λ b, (a, b)) <$> l')).
    apply NoDup_fmap_2; [|done]. by intros x y [= ->].
  - intros [x y] Hin Hin'.
    apply list_elem_of_In, in_map_iff in Hin as (y' & [= <- <-] & _).
    apply list_elem_of_In, in_prod_iff in Hin' as [Hin' _].
    by apply list_elem_of_In in Hin'.
  - exact IH.
Qed.

(** C4, as the code has it. In one pass of the rotation loops over a
    working set of distinct traces no pair is rotated twice: the rotated
    pairs are all different, a trace is never paired with itself, and a
    pair rotated as (a, b) is not rotated again as (b, a). The loops keep
    no record of the traces already rotated. *)
Theorem pair_rotated_once (cphi sphi : float) (ts : list ref)
    (h : gmap ref Trace) :
  NoDup ts →
  let rots := rotations (trail (rotate_loops cphi sphi ts (mkWorld h [])).2) in
  NoDup rots ∧ ∀ a b, (a, b) ∈ rots → a ≠ b ∧ (b, a) ∉ rots.
Proof.
  intros Hts rots. unfold rots. rewrite rotate_loops_rotations. split.
  - by apply NoDup_bool_filter, NoDup_list_prod.
  - intros a b [_ Hab]%list_elem_of_In%filter_In. split.
    + intros ->. unfold pair_in in Hab. cbn [fst snd] in Hab.
      by rewrite is_pair_irrefl in Hab.
    + intros [_ Hba]%list_elem_of_In%filter_In.
      unfold pair_in in Hab, Hba. cbn [fst snd] in Hab, Hba.
      by rewrite (is_pair_asym _ _ Hab) in Hba.
Qed.

Lemma pair_rotated_once_witness :
  let rots := rotations (trail (rotate_loops 0 1 [0; 1; 2]%nat
                                  (mkWorld Sample.store [])).2) in
  NoDup rots ∧ ∀ a b, (a, b) ∈ rots → a ≠ b ∧ (b, a) ∉ rots.
Proof.
  apply (pair_rotated_once 0 1 [0; 1; 2]%nat Sample.store).
  apply (bool_decide_unpack _). vm_compute. exact I.
Defined.

(** C4 as the specification states it fails: with a north component and two
    east components of one station in the working set, the north trace is
    rotated with each of them. *)
Lemma trace_rotated_twice :
  ¬ (∀ (cphi sphi : float) (ts : list ref) (h : gmap ref Trace) (r : ref),
       NoDup ts →
       participations r
         (rotations (trail (rotate_loops cphi sphi ts (mkWorld h [])).2)) ≤ 1)%nat.
Proof.
  intros H.
  specialize (H 0 1 [0; 1; 2]%nat Sample.store 0%nat).
  assert (Hnd : NoDup [0; 1; 2]%nat).
  { apply (bool_decide_unpack _). vm_compute. exact I. }
  specialize (H Hnd). vm_compute in H. lia.
Qed.

Lemma rotate_pair_effect (cphi sphi : float) (a b : ref) (w : World) :
  a ≠ b →
  let ya := ydata (heap w !!! a) in
  let yb := ydata (heap w !!! b) in
  let w' := (rotate_pair cphi sphi a b w).2 in
  heap w' !!! a
    = set_ydata (heap w !!! a) (arr_add (arr_scale ya cphi) (arr_scale yb sphi))
  ∧ heap w' !!! b
    = set_ydata (heap w !!! b)
        (arr_add (arr_scale (arr_neg ya) sphi) (arr_scale yb cphi))
  ∧ ∀ r, r ≠ a → r ≠ b → heap w' !!! r = heap w !!! r.
Proof.
  intros Hab ya yb w'. unfold w'. rewrite rotate_pair_rotated. cbn [snd heap].
  destruct (rotated_members cphi sphi (heap w) a b Hab) as [Ha Hb].
  split_and!; [exact Ha | exact Hb |].
  intros r Hra Hrb. by apply rotated_other.
Qed.




(** The pass on the three dtypes, for a turn of 30 degrees. *)
Lemma rotate_float64_samples :
  let out := rotate_stage Edge.env_30 Sample.cfg Edge.turn_30
               (Some [0; 1]%nat) (mkWorld Sample.store []) in
  ydata (heap out.2 !!! 0%nat)
    = Float64 [0x1.2ed9eba16132ap+1; 0x1.ddb3d742c2655p+1]
  ∧ ydata (heap out.2 !!! 1%nat)
    = Float64 [0x1.0c8dc2e423980p+1; 0x1.3b67ae8584cabp+1].
Proof. vm_compute. done. Qed.

Lemma rotate_float32_samples :
  let out := rotate_stage Edge.env_30 Sample.cfg Edge.turn_30
               (Some [7; 8]%nat) (mkWorld Edge.store_float32 []) in
  ydata (heap out.2 !!! 7%nat) = Float32 [0x1.4646ep+2; 0x1.176cf6p+2]
  ∧ ydata (heap out.2 !!! 8%nat) = Float32 [0x1.6a4198p+1; 0x1.63fab8p+2].
Proof. vm_compute. done. Qed.

Lemma rotate_int32_samples :
  let out := rotate_stage Edge.env_quarter Sample.cfg Sample.quarter_turn
               (Some [7; 8]%nat) (mkWorld Edge.store_int32 []) in
  ydata (heap out.2 !!! 7%nat) = Float64 [0x1.3fffff72cece6p+2; 7]
  ∧ ydata (heap out.2 !!! 8%nat)
    = Float64 [-2147483648; -0x1.ffffffffffffcp-1].
Proof. vm_compute. done. Qed.

(** ** Filtering *)

Lemma invoke_filter_run (E : Env) (r : ref) (c : filter_call) (w : World) :
  invoke_filter E r c w =
    match run_filter E c (heap w !!! r) with
    | Ok y => (Ok tt, mkWorld (<[r := set_ydata (heap w !!! r) y]> (heap w))
                              (trail w ++ [EvFilter r c]))
    | Raise e => (Raise e, mkWorld (heap w) (trail w ++ [EvFilter r c]))
    end.
Proof.
  unfold invoke_filter, mbind, M_bind, emit, get_trace, lift, put_trace.
  cbn [heap trail]. by destruct (run_filter E c (heap w !!! r)).
Qed.

(** A call on a filtering primitive always leaves its mark. *)
Lemma invoke_filter_trail (E : Env) (r : ref) (c : filter_call) (w : World) :
  trail (invoke_filter E r c w).2 = trail w ++ [EvFilter r c].
Proof.
  rewrite invoke_filter_run. by destruct (run_filter E c (heap w !!! r)).
Qed.

Lemma invoke_filter_not_skip (E : Env) (r : ref) (c : filter_call)
    (w : World) (res : result unit) :
  invoke_filter E r c w ≠ (res, w).
Proof.
  intros H. pose proof (invoke_filter_trail E r c w) as Ht.
  rewrite H in Ht. cbn [snd] in Ht.
  apply (f_equal length) in Ht. rewrite length_app in Ht. cbn in Ht. lia.
Qed.

(** A call on a filtering primitive applies the filter. *)
Lemma invoke_filter_filtered (E : Env) (r : ref) (c : filter_call)
    (w : World) :
  invoke_filter E r c w = filtered E r c w.
Proof. apply invoke_filter_run. Qed.

Lemma filtered_trail (E : Env) (r : ref) (c : filter_call) (w : World) :
  trail (filtered E r c w).2 = trail w ++ [EvFilter r c].
Proof. unfold filtered. by destruct (run_filter E c (heap w !!! r)). Qed.

Lemma filtered_not_skip (E : Env) (r : ref) (c : filter_call)
    (w : World) (res : result unit) :
  filtered E r c w ≠ (res, w).
Proof.
  intros H. pose proof (filtered_trail E r c w) as Ht.
  rewrite H in Ht. cbn [snd] in Ht.
  apply (f_equal length) in Ht. rewrite length_app in Ht. cbn in Ht. lia.
Qed.

Lemma filtered_inj (E : Env) (r : ref) (c c' : filter_call) (w : World) :
  filtered E r c w = filtered E r c' w → c = c'.
Proof.
  intros H. apply (f_equal (λ o, trail o.2)) in H. cbn beta in H.
  rewrite !filtered_trail in H.
  apply app_inj_tail in H as [_ H]. by injection H.
Qed.

Lemma filtered_calls (E : Env) (r : ref) (c : filter_call) (w : World) :
  filter_calls r (trail (filtered E r c w).2) = filter_calls r (trail w) ++ [c].
Proof.
  rewrite filtered_trail. unfold filter_calls. rewrite omap_app.
  cbn [omap list_omap]. by rewrite Nat.eqb_refl.
Qed.

Lemma filtered_ok (E : Env) (r : ref) (c : filter_call) (w : World)
    (y : ndarray) :
  run_filter E c (heap w !!! r) = Ok y →
  (filtered E r c w).1 = Ok tt
  ∧ heap (filtered E r c w).2 !!! r = set_ydata (heap w !!! r) y
  ∧ ∀ r', r' ≠ r → heap (filtered E r c w).2 !!! r' = heap w !!! r'.
Proof.
  intros Hy. unfold filtered. rewrite Hy. cbn [fst snd heap]. split_and!.
  - done.
  - by rewrite lookup_total_insert_eq.
  - intros r' Hr'. by rewrite lookup_total_insert_ne.
Qed.

Lemma filtered_raise (E : Env) (r : ref) (c : filter_call) (w : World)
    (e : exn) :
  run_filter E c (heap w !!! r) = Raise e →
  (filtered E r c w).1 = Raise e ∧ heap (filtered E r c w).2 = heap w.
Proof. intros He. unfold filtered. by rewrite He. Qed.

(** C6. With [apply_filter] set, each trace takes one of four branches,
    tried in this order. Both cutoffs set: a 2-pole bandpass from the
    highpass to the lowpass cutoff is applied, whatever the sampling
    interval is. Only the lowpass cutoff set: the cutoff is compared with
    the Nyquist frequency [0.5 / deltat] (a sampling interval of zero
    stops the call in the division), and a 4-pole lowpass without
    demeaning is applied or the trace is skipped. Only the highpass cutoff
    set: the same with a 4-pole highpass. Neither set: nothing is done.
    Applying a filter puts the samples the filter returns in the trace,
    changes no other trace and leaves one more filter call on record for
    the trace; when the filter fails the call stops with its exception and
    no trace has changed. An applied filter never looks like a skip, and
    two different filters never look the same. *)
Theorem filter_branches (E : Env) (cfg : Config) (v : Viewer) (r : ref)
    (w : World) :
  apply_filter cfg = true →
  let tr := heap w !!! r in
  let out := filter_trace E cfg v r w in
  match lowpass v, highpass v with
  | Some lp, Some hp => out = filtered E r (Bandpass 2 hp lp) w
  | Some lp, None =>
      out = if deltat tr =? 0 then (Raise ZeroDivisionError, w)
            else if lp <? 0.5 / deltat tr
                 then filtered E r (Lowpass 4 lp false) w
                 else (Ok tt, w)
  | None, Some hp =>
      out = if deltat tr =? 0 then (Raise ZeroDivisionError, w)
            else if hp <? 0.5 / deltat tr
                 then filtered E r (Highpass 4 hp false) w
                 else (Ok tt, w)
  | None, None => out = (Ok tt, w)
  end
  ∧ ∀ c,
      filter_calls r (trail (filtered E r c w).2)
        = filter_calls r (trail w) ++ [c]
      ∧ (∀ y, run_filter E c tr = Ok y →
           (filtered E r c w).1 = Ok tt
           ∧ heap (filtered E r c w).2 !!! r = set_ydata tr y
           ∧ ∀ r', r' ≠ r → heap (filtered E r c w).2 !!! r' = heap w !!! r')
      ∧ (∀ e, run_filter E c tr = Raise e →
           (filtered E r c w).1 = Raise e
           ∧ heap (filtered E r c w).2 = heap w)
      ∧ (∀ res, filtered E r c w ≠ (res, w))
      ∧ (∀ c', filtered E r c w = filtered E r c' w → c = c').
Proof.
  intros Hon tr out. split.
  - unfold out, filter_trace. rewrite Hon.
    destruct (lowpass v) as [lp|], (highpass v) as [hp|].
    + apply invoke_filter_filtered.
    + unfold mbind, M_bind, get_trace, lift, py_div. fold tr.
      destruct (deltat tr =? 0); [done|].
      destruct (lp <? 0.5 / deltat tr); [apply invoke_filter_filtered | done].
    + unfold mbind, M_bind, get_trace, lift, py_div. fold tr.
      destruct (deltat tr =? 0); [done|].
      destruct (hp <? 0.5 / deltat tr); [apply invoke_filter_filtered | done].
    + done.
  - intros c. split_and!.
    + apply filtered_calls.
    + apply filtered_ok.
    + apply filtered_raise.
    + intros res. apply filtered_not_skip.
    + intros c'. apply filtered_inj.
Qed.

(** With both cutoffs set the trace sampled at 10 Hz is bandpassed (the
    filters of the sample halve every sample). *)
Lemma filter_branches_witness :
  filter_trace Sample.env Sample.cfg Edge.band 3%nat (mkWorld Sample.store [])
  = (Ok tt,
     mkWorld (<[3%nat := set_ydata Sample.slow (Float64 [0.5; 1; 1.5])]>
                Sample.store)
             [EvFilter 3%nat (Bandpass 2 0.5 2)]).
Proof.
  exact (proj1 (filter_branches Sample.env Sample.cfg Edge.band 3%nat
                  (mkWorld Sample.store []) eq_refl)).
Defined.

(** On binary64 values, [y <= x] excludes [x < y]. *)
Lemma float_leb_not_ltb (x y : float) : (y <=? x) = true → (x <? y) = false.
Proof.
  rewrite FloatAxioms.leb_spec, FloatAxioms.ltb_spec. unfold SFleb, SFltb.
  destruct (Prim2SF x) as [[]|[]| |[] mx ex],
           (Prim2SF y) as [[]|[]| |[] my ey]; cbn; try done.
  - rewrite (Z.compare_antisym ey ex).
    destruct (ey ?= ex)%Z; cbn; try done.
    pose proof (Pos.compare_cont_antisym my mx Eq) as Hanti.
    cbn [CompOpp] in Hanti. rewrite <- Hanti.
    by destruct (Pos.compare_cont Eq my mx).
  - rewrite (Z.compare_antisym ey ex).
    destruct (ey ?= ex)%Z; cbn; try done.
    pose proof (Pos.compare_cont_antisym my mx Eq) as Hanti.
    cbn [CompOpp] in Hanti. rewrite <- Hanti.
    by destruct (Pos.compare_cont Eq my mx).
Qed.

Lemma single_cutoff_run (E : Env) (r : ref) (w : World) (cutoff : float)
    (c : filter_call) :
  (deltat (heap w !!! r) =? 0) = false →
  (tr ← get_trace r;
   nyquist ← lift (py_div 0.5 (deltat tr));
   if cutoff <? nyquist then invoke_filter E r c else mret tt) w
  = if cutoff <? 0.5 / deltat (heap w !!! r)
    then invoke_filter E r c w else (Ok tt, w).
Proof.
  intros Hd. unfold mbind, M_bind, get_trace, lift, py_div. rewrite Hd.
  by destruct (cutoff <? 0.5 / deltat (heap w !!! r)).
Qed.

(** C7. For a trace with a sampling interval other than zero and exactly
    one cutoff set, the 4-pole filter of that kind is applied, with
    [demean=False], if and only if the cutoff is strictly below the Nyquist
    frequency [0.5 / deltat]: the samples of the trace are then the ones
    the filter returns and the call is on record for the trace. Otherwise,
    and in particular when the cutoff is at or above the Nyquist
    frequency, the call leaves the trace and everything else as it was and
    raises nothing. An applied filter and a skip never look the same. *)
Theorem single_cutoff_nyquist (E : Env) (cfg : Config) (v : Viewer)
    (r : ref) (w : World) (cutoff : float) :
  apply_filter cfg = true →
  (deltat (heap w !!! r) =? 0) = false →
  let tr := heap w !!! r in
  let nyquist := 0.5 / deltat tr in
  let out := filter_trace E cfg v r w in
  (lowpass v = Some cutoff ∧ highpass v = None →
     out = (if cutoff <? nyquist
            then filtered E r (Lowpass 4 cutoff false) w
            else (Ok tt, w))
     ∧ ((nyquist <=? cutoff) = true → out = (Ok tt, w))
     ∧ ((cutoff <? nyquist) = true →
          filter_calls r (trail out.2)
            = filter_calls r (trail w) ++ [Lowpass 4 cutoff false]
          ∧ ∀ y, run_filter E (Lowpass 4 cutoff false) tr = Ok y →
                 out.1 = Ok tt ∧ heap out.2 !!! r = set_ydata tr y))
  ∧ (lowpass v = None ∧ highpass v = Some cutoff →
     out = (if cutoff <? nyquist
            then filtered E r (Highpass 4 cutoff false) w
            else (Ok tt, w))
     ∧ ((nyquist <=? cutoff) = true → out = (Ok tt, w))
     ∧ ((cutoff <? nyquist) = true →
          filter_calls r (trail out.2)
            = filter_calls r (trail w) ++ [Highpass 4 cutoff false]
          ∧ ∀ y, run_filter E (Highpass 4 cutoff false) tr = Ok y →
                 out.1 = Ok tt ∧ heap out.2 !!! r = set_ydata tr y))
  ∧ (∀ c res, filtered E r c w ≠ (res, w)).
Proof.
  intros Hon Hd tr nyquist out. split_and!.
  - intros [Hlp Hhp].
    assert (Hout : out = (if cutoff <? nyquist
                          then filtered E r (Lowpass 4 cutoff false) w
                          else (Ok tt, w))).
    { unfold out, filter_trace. rewrite Hon, Hlp, Hhp.
      rewrite <- invoke_filter_filtered. by apply single_cutoff_run. }
    split_and!; [exact Hout | |].
    + intros Hge. rewrite Hout.
      by rewrite (float_leb_not_ltb cutoff nyquist Hge).
    + intros Hlt. rewrite Hout, Hlt. split; [apply filtered_calls|].
      intros y Hy.
      destruct (filtered_ok E r (Lowpass 4 cutoff false) w y Hy)
        as (Hres & Hr & _).
      by split.
  - intros [Hlp Hhp].
    assert (Hout : out = (if cutoff <? nyquist
                          then filtered E r (Highpass 4 cutoff false) w
                          else (Ok tt, w))).
    { unfold out, filter_trace. rewrite Hon, Hlp, Hhp.
      rewrite <- invoke_filter_filtered. by apply single_cutoff_run. }
    split_and!; [exact Hout | |].
    + intros Hge. rewrite Hout.
      by rewrite (float_leb_not_ltb cutoff nyquist Hge).
    + intros Hlt. rewrite Hout, Hlt. split; [apply filtered_calls|].
      intros y Hy.
      destruct (filtered_ok E r (Highpass 4 cutoff false) w y Hy)
        as (Hres & Hr & _).
      by split.
  - intros c res. apply filtered_not_skip.
Qed.

(** A lowpass at 2 Hz on the trace sampled at 10 Hz (Nyquist frequency
    5 Hz) is applied. *)
Lemma single_cutoff_nyquist_witness :
  filter_trace Sample.env Sample.cfg Sample.lowpass_2 3%nat
    (mkWorld Sample.store [])
  = (Ok tt,
     mkWorld (<[3%nat := set_ydata Sample.slow (Float64 [0.5; 1; 1.5])]>
                Sample.store)
             [EvFilter 3%nat (Lowpass 4 2 false)]).
Proof.
  exact (proj1 (proj1 (single_cutoff_nyquist Sample.env Sample.cfg
                         Sample.lowpass_2 3%nat (mkWorld Sample.store []) 2
                         eq_refl eq_refl)
                  (conj eq_refl eq_refl))).
Defined.

(** A lowpass at 10 Hz on the same trace is skipped. *)
Lemma lowpass_over_nyquist_skipped :
  filter_trace Sample.env Sample.cfg Sample.lowpass_10 3%nat
    (mkWorld Sample.store [])
  = (Ok tt, mkWorld Sample.store []).
Proof. vm_compute. reflexivity. Qed.

(** ** What reaches [io.save] *)

Lemma saves_app (t t' : list event) : saves (t ++ t') = saves t ++ saves t'.
Proof. apply List.filter_app. Qed.

Lemma saves_elem (e : event) (t : list event) :
  e ∈ t → is_save e = true → e ∈ saves t.
Proof.
  intros Hin He. apply list_elem_of_In, filter_In.
  split; [by apply list_elem_of_In | done].
Qed.

Lemma quiet_ret {A} (a : A) : quiet (mret a : M A).
Proof. by intros w. Qed.

Lemma quiet_raise {A} (e : exn) : quiet (raise e : M A).
Proof. by intros w. Qed.

Lemma quiet_lift {A} (r : result A) : quiet (lift r).
Proof. by intros w. Qed.

Lemma quiet_get_trace (r : ref) : quiet (get_trace r).
Proof. by intros w. Qed.

Lemma quiet_put_trace (r : ref) (tr : Trace) : quiet (put_trace r tr).
Proof. by intros w. Qed.

Lemma quiet_emit (e : event) : is_save e = false → quiet (emit e).
Proof.
  intros He w. unfold emit. cbn [snd trail].
  rewrite saves_app. unfold saves at 2. cbn [List.filter]. rewrite He.
  apply app_nil_r.
Qed.

Lemma quiet_bind {A B} (m : M A) (f : A → M B) :
  quiet m → (∀ a, quiet (f a)) → quiet (m ≫= f).
Proof.
  intros Hm Hf w. unfold mbind, M_bind. specialize (Hm w).
  destruct (m w) as [[a|e] w']; cbn [snd] in *.
  - by rewrite Hf.
  - done.
Qed.

Lemma quiet_for_each {A} (body : A → M unit) (l : list A) :
  (∀ x, quiet (body x)) → quiet (for_each body l).
Proof.
  intros Hbody. induction l as [|x l IH]; [apply quiet_ret|].
  cbn [for_each]. apply quiet_bind; [apply Hbody | by intros _].
Qed.

Lemma quiet_read_local {A} (name : string) (v : option A) :
  quiet (read_local name v).
Proof. destruct v; [apply quiet_ret | apply quiet_raise]. Qed.

Lemma quiet_get_ydata (r : ref) : quiet (get_ydata r).
Proof.
  apply quiet_bind; [apply quiet_get_trace | intros; apply quiet_ret].
Qed.

Lemma quiet_put_ydata (r : ref) (y : ndarray) : quiet (put_ydata r y).
Proof.
  apply quiet_bind; [apply quiet_get_trace | intros; apply quiet_put_trace].
Qed.

Lemma quiet_invoke_filter (E : Env) (r : ref) (c : filter_call) :
  quiet (invoke_filter E r c).
Proof.
  unfold invoke_filter.
  apply quiet_bind; [by apply quiet_emit | intros _].
  apply quiet_bind; [apply quiet_get_trace | intros tr].
  apply quiet_bind; [apply quiet_lift | intros y]. apply quiet_put_trace.
Qed.

Lemma quiet_normalize (cfg : Config) (r : ref) : quiet (normalize cfg r).
Proof.
  apply quiet_bind; [apply quiet_get_trace | intros; apply quiet_put_trace].
Qed.

Lemma quiet_filter_trace (E : Env) (cfg : Config) (v : Viewer) (r : ref) :
  quiet (filter_trace E cfg v r).
Proof.
  unfold filter_trace.
  destruct (apply_filter cfg); [|apply quiet_ret].
  destruct (lowpass v) as [lp|], (highpass v) as [hp|];
    try apply quiet_invoke_filter; try apply quiet_ret;
    (apply quiet_bind; [apply quiet_get_trace | intros tr];
     apply quiet_bind; [apply quiet_lift | intros nyquist];
     match goal with |- quiet (if ?c then _ else _) => destruct c end;
     [apply quiet_invoke_filter | apply quiet_ret]).
Qed.

Lemma quiet_trace_loop (E : Env) (cfg : Config) (v : Viewer)
    (trs acc : list ref) :
  quiet (trace_loop E cfg v trs acc).
Proof.
  revert acc. induction trs as [|tr trs IH]; intros acc; [apply quiet_ret|].
  cbn [trace_loop].
  apply quiet_bind; [apply quiet_normalize | intros _].
  apply quiet_bind; [apply quiet_filter_trace | intros _]. apply IH.
Qed.

Lemma quiet_batch_loop (E : Env) (cfg : Config) (v : Viewer)
    (batches : list (list ref)) (ts : option (list ref)) :
  quiet (batch_loop E cfg v batches ts).
Proof.
  revert ts. induction batches as [|trs batches IH]; intros ts;
    [apply quiet_ret|].
  cbn [batch_loop]. apply quiet_bind; [apply quiet_trace_loop | intros ts'].
  apply IH.
Qed.

Lemma quiet_rotate_pair (cphi sphi : float) (a b : ref) :
  quiet (rotate_pair cphi sphi a b).
Proof.
  unfold rotate_pair.
  apply quiet_bind; [by apply quiet_emit | intros _].
  apply quiet_bind; [apply quiet_get_ydata | intros ya].
  apply quiet_bind; [apply quiet_get_ydata | intros yb].
  apply quiet_bind; [apply quiet_get_ydata | intros ya'].
  apply quiet_bind; [apply quiet_get_ydata | intros yb'].
  apply quiet_bind; [apply quiet_put_ydata | intros _].
  apply quiet_put_ydata.
Qed.

Lemma quiet_rotate_stage (E : Env) (cfg : Config) (v : Viewer)
    (ts : option (list ref)) :
  quiet (rotate_stage E cfg v ts).
Proof.
  unfold rotate_stage.
  destruct (negb (rotate v =? 0) && apply_filter cfg); [|apply quiet_ret].
  apply quiet_bind; [apply quiet_read_local | intros l].
  apply quiet_for_each. intros a. apply quiet_for_each. intros b.
  apply quiet_bind; [apply quiet_get_trace | intros ta].
  apply quiet_bind; [apply quiet_get_trace | intros tb].
  destruct (is_pair ta tb); [apply quiet_rotate_pair | apply quiet_ret].
Qed.

(** ** The loop over the batches *)

Lemma trace_loop_result (E : Env) (cfg : Config) (v : Viewer)
    (trs acc r : list ref) (w w' : World) :
  trace_loop E cfg v trs acc w = (Ok r, w') → r = acc ++ trs.
Proof.
  revert acc w. induction trs as [|tr trs IH]; intros acc w.
  - intros [= <- _]. by rewrite app_nil_r.
  - cbn [trace_loop]. unfold mbind at 1, M_bind at 1.
    destruct (normalize cfg tr w) as [[[]|e] w1]; [|done].
    unfold mbind at 1, M_bind at 1.
    destruct (filter_trace E cfg v tr w1) as [[[]|e] w2]; [|done].
    intros H%IH. by rewrite H, <- app_assoc.
Qed.

Lemma batch_loop_result (E : Env) (cfg : Config) (v : Viewer)
    (batches : list (list ref)) (ts r : option (list ref)) (w w' : World) :
  batch_loop E cfg v batches ts w = (Ok r, w') →
  r = match final_batch batches with Some b => Some b | None => ts end.
Proof.
  unfold final_batch. revert ts w.
  induction batches as [|trs batches IH]; intros ts w.
  - by intros [= <- _].
  - cbn [batch_loop]. unfold mbind at 1, M_bind at 1.
    destruct (trace_loop E cfg v trs [] w) as [[l|e] w1] eqn:Hl; [|done].
    apply trace_loop_result in Hl. cbn [app] in Hl. subst l.
    intros H%IH. rewrite H, last_cons. by destruct (last batches).
Qed.

(** ** The save and what follows it *)

Lemma save_stage_run (E : Env) (cfg : Config) (out : string)
    (ts : list ref) (w : World) :
  save_stage E cfg out (Some ts) w =
    match io_save E ((λ r, heap w !!! r) <$> ts) out (format cfg) true with
    | None =>
        (Ok tt,
         mkWorld (heap w)
           (trail w ++ [EvSave ts ((λ r, heap w !!! r) <$> ts) out
                          (format cfg) true]))
    | Some d =>
        (Raise (SnufflingCallFailed d),
         mkWorld (heap w)
           (trail w ++ [EvSave ts ((λ r, heap w !!! r) <$> ts) out
                          (format cfg) true; EvFail d]))
    end.
Proof.
  unfold save_stage, read_local, mbind, M_bind, mret, M_ret, emit.
  cbn [heap trail].
  destruct (io_save E _ out (format cfg) true) as [d|]; [|done].
  unfold fail, raise, mbind, M_bind, emit. cbn [heap trail].
  by rewrite <- app_assoc.
Qed.

Lemma save_stage_unbound (E : Env) (cfg : Config) (out : string) (w : World) :
  save_stage E cfg out None w = (Raise (UnboundLocalError "traces_save"), w).
Proof. reflexivity. Qed.

Lemma quiet_after_save (E : Env) (cfg : Config) (v : Viewer) (out : string) :
  quiet (emit (EvLogInfo "saved waveforms to %s" out);;
         if save_stations cfg then
           fn ← lift (output_filename E "Save Stations" "stations.pf");
           emit (EvDumpStations (stations v) fn);;
           emit (EvLogInfo "saved stations to %s" fn)
         else mret tt).
Proof.
  apply quiet_bind; [by apply quiet_emit | intros _].
  destruct (save_stations cfg); [|apply quiet_ret].
  apply quiet_bind; [apply quiet_lift | intros fn].
  apply quiet_bind; [by apply quiet_emit | intros _]. by apply quiet_emit.
Qed.

(** [call], stage by stage. *)
Lemma call_run (E : Env) (cfg : Config) (v : Viewer)
    (batches : list (list ref)) (h : gmap ref Trace) :
  run_call E cfg v batches h =
    match output_filename E "Template for output files"
            (default_output_filename (tinc cfg) (format cfg)) with
    | Raise e => (Raise e, mkWorld h [])
    | Ok out =>
        match batch_loop E cfg v batches None (mkWorld h []) with
        | (Raise e, w1) => (Raise e, w1)
        | (Ok ts, w1) =>
            match rotate_stage E cfg v ts w1 with
            | (Raise e, w2) => (Raise e, w2)
            | (Ok _, w2) =>
                match save_stage E cfg out ts w2 with
                | (Raise e, w3) => (Raise e, w3)
                | (Ok _, w3) =>
                    (emit (EvLogInfo "saved waveforms to %s" out);;
                     if save_stations cfg then
                       fn ← lift (output_filename E "Save Stations"
                                    "stations.pf");
                       emit (EvDumpStations (stations v) fn);;
                       emit (EvLogInfo "saved stations to %s" fn)
                     else mret tt) w3
                end
            end
        end
    end.
Proof.
  unfold run_call, call.
  destruct (output_filename E "Template for output files"
              (default_output_filename (tinc cfg) (format cfg)))
    as [out|e]; reflexivity.
Qed.

(** The shape of every run of [call]: either [io.save] is not reached, or
    it is reached once, with the last batch, after which a failure ends the
    call. *)
Lemma call_cases (E : Env) (cfg : Config) (v : Viewer)
    (batches : list (list ref)) (h : gmap ref Trace) :
  let res := run_call E cfg v batches h in
  saves (trail res.2) = []
  ∨ ∃ w ts out,
      final_batch batches = Some ts
      ∧ saves (trail w) = []
      ∧ let vals := (λ r, heap w !!! r) <$> ts in
        let ev := EvSave ts vals out (format cfg) true in
        saves (trail res.2) = [ev]
        ∧ match io_save E vals out (format cfg) true with
          | Some d => res = (Raise (SnufflingCallFailed d),
                             mkWorld (heap w) (trail w ++ [ev; EvFail d]))
          | None => True
          end.
Proof.
  intros res. unfold res. rewrite call_run.
  destruct (output_filename E "Template for output files"
              (default_output_filename (tinc cfg) (format cfg)))
    as [out|e]; [|by left].
  pose proof (quiet_batch_loop E cfg v batches None (mkWorld h [])) as Hq1.
  destruct (batch_loop E cfg v batches None (mkWorld h []))
    as [[ts|e] w1] eqn:Hb; cbn [snd trail] in Hq1; [|by left].
  apply batch_loop_result in Hb.
  pose proof (quiet_rotate_stage E cfg v ts w1) as Hq2.
  destruct (rotate_stage E cfg v ts w1) as [[[]|e] w2];
    cbn [snd] in Hq2; rewrite Hq1 in Hq2; [|by left].
  destruct ts as [ts|].
  2: { rewrite save_stage_unbound. by left. }
  destruct (final_batch batches) as [b|] eqn:Hlast; [|done].
  injection Hb as ->.
  right. exists w2, b, out. split; [done|]. split; [done|].
  cbv zeta. rewrite save_stage_run.
  destruct (io_save E _ out (format cfg) true) as [d|].
  - split; [|done]. cbn [snd trail]. rewrite saves_app, Hq2. reflexivity.
  - split; [|done].
    pose proof (quiet_after_save E cfg v out
      (mkWorld (heap w2) (trail w2 ++
         [EvSave b ((λ r, heap w2 !!! r) <$> b) out (format cfg) true])))
      as Hq3.
    rewrite Hq3. cbn [trail]. rewrite saves_app, Hq2. reflexivity.
Qed.

Lemma saved_batches_saves (t : list event) :
  saved_batches (saves t) = saved_batches t.
Proof.
  induction t as [|e t IH]; [done|].
  destruct e; cbn; try exact IH. by f_equal.
Qed.

(** Whatever the batches, [io.save] is handed at most one of them, the
    last. *)
Lemma call_saves_last_batch (E : Env) (cfg : Config) (v : Viewer)
    (batches : list (list ref)) (h : gmap ref Trace) :
  saved_batches (trail (run_call E cfg v batches h).2) = []
  ∨ ∃ ts, final_batch batches = Some ts
          ∧ saved_batches (trail (run_call E cfg v batches h).2) = [ts].
Proof.
  rewrite <- saved_batches_saves.
  destruct (call_cases E cfg v batches h)
    as [-> | (w & ts & out & Hlast & _ & -> & _)]; [by left|].
  right. by exists ts.
Qed.

(** C1, on the code. With two batches, the first holding a north and an
    east component that pass the pairing test, every trace of both batches
    is conditioned (here: lowpass filtered), but only the second batch is
    handed to [io.save] and nothing is rotated: lines 105-131 stand after
    the loop over the batches, not inside it. *)
Theorem two_batches_last_saved :
  let res := run_call Sample.env Sample.cfg Sample.turn_and_lowpass
               Sample.two_batches Sample.store in
  res.1 = Ok tt
  ∧ filter_calls 0%nat (trail res.2) = [Lowpass 4 2 false]
  ∧ filter_calls 1%nat (trail res.2) = [Lowpass 4 2 false]
  ∧ filter_calls 2%nat (trail res.2) = [Lowpass 4 2 false]
  ∧ is_pair (Sample.store !!! 0%nat) (Sample.store !!! 1%nat) = true
  ∧ rotations (trail res.2) = []
  ∧ saved_batches (trail res.2) = [[2%nat]].
Proof. vm_compute. repeat split. Qed.

(** C8. When [io.save] fails, the call shows the failure to the user with
    the detail of the failure, ends by raising with that detail, and does
    nothing after it: the trail ends with the one invocation of [io.save]
    and the failure shown, and [io.save] was not invoked before. *)
Theorem save_failure_is_fatal (E : Env) (cfg : Config) (v : Viewer)
    (batches : list (list ref)) (h : gmap ref Trace)
    (ts : list ref) (vals : list Trace) (fn fmt : string) (ow : bool)
    (detail : string) :
  EvSave ts vals fn fmt ow ∈ trail (run_call E cfg v batches h).2 →
  io_save E vals fn fmt ow = Some detail →
  (run_call E cfg v batches h).1 = Raise (SnufflingCallFailed detail)
  ∧ ∃ pre,
      trail (run_call E cfg v batches h).2
        = pre ++ [EvSave ts vals fn fmt ow; EvFail detail]
      ∧ saves pre = [].
Proof.
  intros Hin Hfail. apply saves_elem in Hin; [|done].
  destruct (call_cases E cfg v batches h)
    as [Hnone | (w & ts' & out & _ & Hpre & Hsaves & Hres)].
  - rewrite Hnone in Hin. by apply elem_of_nil in Hin.
  - rewrite Hsaves in Hin. apply list_elem_of_singleton in Hin.
    injection Hin as -> -> -> -> ->.
    rewrite Hfail in Hres. rewrite Hres. cbn [fst snd trail].
    split; [done|]. by exists (trail w).
Qed.

Lemma save_failure_is_fatal_witness :
  (run_call Sample.env_full_disk Sample.cfg Sample.quarter_turn
     Sample.two_batches Sample.store).1
    = Raise (SnufflingCallFailed "disk full")
  ∧ ∃ pre,
      trail (run_call Sample.env_full_disk Sample.cfg Sample.quarter_turn
               Sample.two_batches Sample.store).2
        = pre ++ [EvSave [2%nat] [Sample.bhe'] "trace_%n.%s.%l.%c.mseed"
                    "mseed" true;
                  EvFail "disk full"]
      ∧ saves pre = [].
Proof.
  apply (save_failure_is_fatal Sample.env_full_disk Sample.cfg
           Sample.quarter_turn Sample.two_batches Sample.store
           [2%nat] [Sample.bhe'] "trace_%n.%s.%l.%c.mseed" "mseed" true
           "disk full").
  - vm_compute. apply list_elem_of_here.
  - reflexivity.
Defined.

(** C10. When the chopper yields no batch and the file dialog returns a
    name, the call ends with an unbound-variable error on [traces_save]
    and has done nothing, so [io.save] was not invoked; in every run that
    does invoke [io.save] the chopper yielded at least one batch. *)
Theorem no_batches_unbound (E : Env) (cfg : Config) (v : Viewer)
    (h : gmap ref Trace) :
  (∀ out,
     output_filename E "Template for output files"
       (default_output_filename (tinc cfg) (format cfg)) = Ok out →
     run_call E cfg v [] h
       = (Raise (UnboundLocalError "traces_save"), mkWorld h []))
  ∧ (∀ batches e,
       e ∈ trail (run_call E cfg v batches h).2 → is_save e = true →
       batches ≠ []).
Proof.
  split.
  - intros out Hout. rewrite call_run, Hout. cbn [batch_loop].
    unfold rotate_stage.
    by destruct (negb (rotate v =? 0) && apply_filter cfg).
  - intros batches e Hin He. apply saves_elem in Hin; [|done].
    destruct (call_cases E cfg v batches h)
      as [Hnone | (w & ts & out & Hlast & _)].
    + rewrite Hnone in Hin. by apply elem_of_nil in Hin.
    + by intros ->.
Qed.

(** * Further properties of [call] *)

(** ** Computations that respect a relation *)

Section Respects.

Context (R : relation World) `{!PreOrder R}.

Lemma respects_ret {A} (a : A) : respects R (mret a : M A).
Proof. intros w. reflexivity. Qed.

Lemma respects_raise {A} (e : exn) : respects R (raise e : M A).
Proof. intros w. reflexivity. Qed.

Lemma respects_lift {A} (r : result A) : respects R (lift r).
Proof. intros w. reflexivity. Qed.

Lemma respects_get_trace (r : ref) : respects R (get_trace r).
Proof. intros w. reflexivity. Qed.

Lemma respects_read_local {A} (name : string) (v : option A) :
  respects R (read_local name v).
Proof. destruct v; [apply respects_ret | apply respects_raise]. Qed.

Lemma respects_bind {A B} (m : M A) (f : A → M B) :
  respects R m → (∀ a, respects R (f a)) → respects R (m ≫= f).
Proof.
  intros Hm Hf w. unfold mbind, M_bind. specialize (Hm w).
  destruct (m w) as [[a|e] w']; cbn [snd] in *; [|done].
  etrans; [exact Hm | apply Hf].
Qed.

Lemma respects_for_each {A} (body : A → M unit) (l : list A) :
  (∀ x, respects R (body x)) → respects R (for_each body l).
Proof.
  intros Hbody. induction l as [|x l IH]; [apply respects_ret|].
  cbn [for_each]. apply respects_bind; [apply Hbody | by intros _].
Qed.

Lemma respects_get_ydata (r : ref) : respects R (get_ydata r).
Proof.
  apply respects_bind; [apply respects_get_trace | intros; apply respects_ret].
Qed.

(** The stages of [call] respect what their writes and events respect. *)

Lemma respects_filter_trace (E : Env) (cfg : Config) (v : Viewer) (r : ref) :
  (∀ c, respects R (invoke_filter E r c)) →
  respects R (filter_trace E cfg v r).
Proof.
  intros Hinvoke. unfold filter_trace.
  destruct (apply_filter cfg); [|apply respects_ret].
  destruct (lowpass v) as [lp|], (highpass v) as [hp|];
    try apply Hinvoke; try apply respects_ret;
    (apply respects_bind; [apply respects_get_trace | intros tr];
     apply respects_bind; [apply respects_lift | intros nyquist];
     match goal with |- respects _ (if ?c then _ else _) => destruct c end;
     [apply Hinvoke | apply respects_ret]).
Qed.

Lemma respects_trace_loop (E : Env) (cfg : Config) (v : Viewer)
    (trs acc : list ref) :
  (∀ r, respects R (normalize cfg r)) →
  (∀ r, respects R (filter_trace E cfg v r)) →
  respects R (trace_loop E cfg v trs acc).
Proof.
  intros Hnorm Hfilter. revert acc.
  induction trs as [|tr trs IH]; intros acc; [apply respects_ret|].
  cbn [trace_loop].
  apply respects_bind; [apply Hnorm | intros _].
  apply respects_bind; [apply Hfilter | intros _]. apply IH.
Qed.

Lemma respects_batch_loop (E : Env) (cfg : Config) (v : Viewer)
    (batches : list (list ref)) (ts : option (list ref)) :
  (∀ r, respects R (normalize cfg r)) →
  (∀ r, respects R (filter_trace E cfg v r)) →
  respects R (batch_loop E cfg v batches ts).
Proof.
  intros Hnorm Hfilter. revert ts.
  induction batches as [|trs batches IH]; intros ts; [apply respects_ret|].
  cbn [batch_loop].
  apply respects_bind; [by apply respects_trace_loop | intros ts'].
  apply IH.
Qed.

Lemma respects_rotate_loops (cphi sphi : float) (ts : list ref) :
  (∀ a b, respects R (rotate_pair cphi sphi a b)) →
  respects R (rotate_loops cphi sphi ts).
Proof.
  intros Hpair. apply respects_for_each. intros a.
  apply respects_for_each. intros b.
  apply respects_bind; [apply respects_get_trace | intros ta].
  apply respects_bind; [apply respects_get_trace | intros tb].
  destruct (is_pair ta tb); [apply Hpair | apply respects_ret].
Qed.

Lemma respects_rotate_stage (E : Env) (cfg : Config) (v : Viewer)
    (ts : option (list ref)) :
  (∀ cphi sphi a b, respects R (rotate_pair cphi sphi a b)) →
  respects R (rotate_stage E cfg v ts).
Proof.
  intros Hpair. unfold rotate_stage.
  destruct (negb (rotate v =? 0) && apply_filter cfg); [|apply respects_ret].
  apply respects_bind; [apply respects_read_local | intros l].
  by apply respects_rotate_loops.
Qed.

Lemma respects_save_stage (E : Env) (cfg : Config) (out : string)
    (ts : option (list ref)) :
  (∀ e, is_save_event e ∨ is_fail_event e → respects R (emit e)) →
  respects R (save_stage E cfg out ts).
Proof.
  intros Hemit. unfold save_stage.
  apply respects_bind; [apply respects_read_local | intros l].
  apply respects_bind; [intros w; reflexivity | intros vals].
  apply respects_bind; [apply Hemit; by left | intros _].
  destruct (io_save E vals out (format cfg) true) as [d|];
    [|apply respects_ret].
  apply respects_bind; [apply Hemit; by right | intros _].
  apply respects_raise.
Qed.

Lemma respects_after_save (E : Env) (cfg : Config) (v : Viewer)
    (out : string) :
  (∀ e, is_log_event e ∨ is_dump_event e → respects R (emit e)) →
  respects R (after_save E cfg v out).
Proof.
  intros Hemit. unfold after_save.
  apply respects_bind; [apply Hemit; by left | intros _].
  destruct (save_stations cfg); [|apply respects_ret].
  apply respects_bind; [apply respects_lift | intros fn].
  apply respects_bind; [apply Hemit; by right | intros _].
  apply Hemit; by left.
Qed.

End Respects.

Lemma respects_weaken {A} (R R' : relation World) (m : M A) :
  (∀ w w', R w w' → R' w w') → respects R m → respects R' m.
Proof. intros Hsub Hm w. apply Hsub, Hm. Qed.

(** ** The relations *)

#[global] Instance adds_preorder (Q : event → Prop) : PreOrder (adds Q).
Proof.
  split.
  - intros w e He. by left.
  - intros w1 w2 w3 H12 H23 e He.
    destruct (H23 e He) as [He2 | HQ]; [by apply H12 | by right].
Qed.

#[global] Instance same_heap_preorder : PreOrder same_heap.
Proof.
  split.
  - by intros w r.
  - intros w1 w2 w3 H12 H23 r. by rewrite H23, H12.
Qed.

#[global] Instance same_signal_preorder : PreOrder same_signal.
Proof.
  split.
  - by intros w r.
  - intros w1 w2 w3 H12 H23 r.
    destruct (H12 r) as (Hy & Hd & Ht), (H23 r) as (Hy' & Hd' & Ht').
    split_and!; congruence.
Qed.

#[global] Instance same_codes_preorder : PreOrder same_codes.
Proof.
  split.
  - by intros w r.
  - intros w1 w2 w3 H12 H23 r. by rewrite H23, H12.
Qed.

#[global] Instance fit_kept_preorder : PreOrder fit_kept.
Proof.
  split.
  - by intros w r.
  - intros w1 w2 w3 H12 H23 r Hfit. by apply H23, H12.
Qed.

Lemma same_codes_fit_kept (w w' : World) : same_codes w w' → fit_kept w w'.
Proof.
  intros H r. specialize (H r). unfold codes in H. unfold codes_fit.
  injection H as -> -> -> ->. done.
Qed.

(** *** Events *)

Lemma adds_emit (Q : event → Prop) (e : event) :
  Q e → respects (adds Q) (emit e).
Proof.
  intros HQ w e' He'. unfold emit in He'. cbn [snd trail] in He'.
  apply elem_of_app in He' as [He' | He']; [by left|].
  apply list_elem_of_singleton in He' as ->. by right.
Qed.

Lemma adds_put_trace (Q : event → Prop) (r : ref) (tr : Trace) :
  respects (adds Q) (put_trace r tr).
Proof. intros w e He. by left. Qed.

Lemma adds_normalize (Q : event → Prop) (cfg : Config) (r : ref) :
  respects (adds Q) (normalize cfg r).
Proof.
  apply respects_bind; [apply _ | apply respects_get_trace; apply _ |].
  intros tr. apply adds_put_trace.
Qed.

Lemma adds_invoke_filter (Q : event → Prop) (E : Env) (r : ref)
    (c : filter_call) :
  Q (EvFilter r c) → respects (adds Q) (invoke_filter E r c).
Proof.
  intros HQ. unfold invoke_filter.
  apply respects_bind; [apply _ | by apply adds_emit | intros _].
  apply respects_bind; [apply _ | apply respects_get_trace; apply _ |].
  intros tr.
  apply respects_bind; [apply _ | apply respects_lift; apply _ | intros y].
  apply adds_put_trace.
Qed.

Lemma adds_rotate_pair (Q : event → Prop) (cphi sphi : float) (a b : ref) :
  Q (EvRotate a b) → respects (adds Q) (rotate_pair cphi sphi a b).
Proof.
  intros HQ w e He. rewrite rotate_pair_run in He. cbn [snd trail] in He.
  apply elem_of_app in He as [He | He]; [by left|].
  apply list_elem_of_singleton in He as ->. by right.
Qed.

(** *** The store *)

Lemma same_heap_emit (e : event) : respects same_heap (emit e).
Proof. by intros w r. Qed.

Lemma same_signal_emit (e : event) : respects same_signal (emit e).
Proof. by intros w r. Qed.

Lemma same_codes_emit (e : event) : respects same_codes (emit e).
Proof. by intros w r. Qed.

Lemma normalize_codes_signal (fmt : string) (tr : Trace) :
  ydata (normalize_codes fmt tr) = ydata tr
  ∧ deltat (normalize_codes fmt tr) = deltat tr
  ∧ tmin (normalize_codes fmt tr) = tmin tr.
Proof.
  unfold normalize_codes. destruct (String.eqb fmt "mseed"); [|done].
  by rewrite truncate_codes_fields.
Qed.

Lemma normalize_run (cfg : Config) (r : ref) (w : World) :
  normalize cfg r w =
    (Ok tt, mkWorld (<[r := normalize_codes (format cfg) (heap w !!! r)]>
                       (heap w)) (trail w)).
Proof. reflexivity. Qed.

Lemma same_signal_normalize (cfg : Config) (r : ref) :
  respects same_signal (normalize cfg r).
Proof.
  intros w r'. rewrite normalize_run. cbn [snd heap].
  destruct (decide (r' = r)) as [-> | Hne].
  - rewrite lookup_total_insert_eq. apply normalize_codes_signal.
  - by rewrite lookup_total_insert_ne.
Qed.

Lemma truncate_codes_fit (tr : Trace) : codes_fit (truncate_codes tr).
Proof.
  rewrite truncate_codes_fields. unfold codes_fit.
  cbn [network station location channel]. rewrite !take_length. lia.
Qed.

Lemma fit_kept_normalize (cfg : Config) (r : ref) :
  respects fit_kept (normalize cfg r).
Proof.
  intros w r' Hfit. rewrite normalize_run. cbn [snd heap].
  destruct (decide (r' = r)) as [-> | Hne].
  - rewrite lookup_total_insert_eq. unfold normalize_codes.
    destruct (String.eqb (format cfg) "mseed");
      [apply truncate_codes_fit | done].
  - by rewrite lookup_total_insert_ne.
Qed.

Lemma same_codes_invoke_filter (E : Env) (r : ref) (c : filter_call) :
  respects same_codes (invoke_filter E r c).
Proof.
  intros w r'. rewrite invoke_filter_run.
  destruct (run_filter E c (heap w !!! r)) as [y|e]; cbn [snd heap]; [|done].
  destruct (decide (r' = r)) as [-> | Hne].
  - by rewrite lookup_total_insert_eq.
  - by rewrite lookup_total_insert_ne.
Qed.

Lemma same_codes_rotate_pair (cphi sphi : float) (a b : ref) :
  respects same_codes (rotate_pair cphi sphi a b).
Proof.
  intros w r. rewrite rotate_pair_run. cbv zeta. cbn [snd heap].
  destruct (decide (r = b)) as [-> | Hrb].
  - rewrite lookup_total_insert_eq.
    destruct (decide (a = b)) as [-> | Hab].
    + by rewrite lookup_total_insert_eq.
    + by rewrite lookup_total_insert_ne.
  - rewrite lookup_total_insert_ne by done.
    destruct (decide (r = a)) as [-> | Hra].
    + by rewrite lookup_total_insert_eq.
    + by rewrite lookup_total_insert_ne.
Qed.

(** ** The stages of a call *)

Lemma call_run_after (E : Env) (cfg : Config) (v : Viewer)
    (batches : list (list ref)) (h : gmap ref Trace) :
  run_call E cfg v batches h =
    match output_filename E "Template for output files"
            (default_output_filename (tinc cfg) (format cfg)) with
    | Raise e => (Raise e, mkWorld h [])
    | Ok out =>
        match batch_loop E cfg v batches None (mkWorld h []) with
        | (Raise e, w1) => (Raise e, w1)
        | (Ok ts, w1) =>
            match rotate_stage E cfg v ts w1 with
            | (Raise e, w2) => (Raise e, w2)
            | (Ok _, w2) =>
                match save_stage E cfg out ts w2 with
                | (Raise e, w3) => (Raise e, w3)
                | (Ok _, w3) => after_save E cfg v out w3
                end
            end
        end
    end.
Proof. apply call_run. Qed.

(** To show something of every run of [call], show it of the five ways a
    run can end. *)
Lemma call_stages (E : Env) (cfg : Config) (v : Viewer)
    (batches : list (list ref)) (h : gmap ref Trace)
    (P : result unit * World → Prop) :
  let dialog := output_filename E "Template for output files"
                  (default_output_filename (tinc cfg) (format cfg)) in
  let w0 := mkWorld h [] in
  (∀ e, dialog = Raise e → P (Raise e, w0)) →
  (∀ out e w1, dialog = Ok out →
     batch_loop E cfg v batches None w0 = (Raise e, w1) → P (Raise e, w1)) →
  (∀ out ts w1 e w2, dialog = Ok out →
     batch_loop E cfg v batches None w0 = (Ok ts, w1) →
     rotate_stage E cfg v ts w1 = (Raise e, w2) → P (Raise e, w2)) →
  (∀ out ts w1 w2 e w3, dialog = Ok out →
     batch_loop E cfg v batches None w0 = (Ok ts, w1) →
     rotate_stage E cfg v ts w1 = (Ok tt, w2) →
     save_stage E cfg out ts w2 = (Raise e, w3) → P (Raise e, w3)) →
  (∀ out ts w1 w2 w3, dialog = Ok out →
     batch_loop E cfg v batches None w0 = (Ok ts, w1) →
     rotate_stage E cfg v ts w1 = (Ok tt, w2) →
     save_stage E cfg out ts w2 = (Ok tt, w3) →
     P (after_save E cfg v out w3)) →
  P (run_call E cfg v batches h).
Proof.
  intros dialog w0 H0 H1 H2 H3 H4. rewrite call_run_after. fold dialog w0.
  destruct dialog as [out|e] eqn:Hd; [|by apply H0].
  destruct (batch_loop E cfg v batches None w0) as [[ts|e] w1] eqn:Hb;
    [|by eapply H1].
  destruct (rotate_stage E cfg v ts w1) as [[[]|e] w2] eqn:Hr;
    [|by eapply H2].
  destruct (save_stage E cfg out ts w2) as [[[]|e] w3] eqn:Hs;
    [by eapply H4 | by eapply H3].
Qed.

Lemma respects_call (R : relation World) `{!PreOrder R}
    (E : Env) (cfg : Config) (v : Viewer) (batches : list (list ref)) :
  (∀ r, respects R (normalize cfg r)) →
  (∀ r, respects R (filter_trace E cfg v r)) →
  (∀ ts, respects R (rotate_stage E cfg v ts)) →
  (∀ e, is_save_event e ∨ is_fail_event e ∨ is_log_event e
        ∨ is_dump_event e → respects R (emit e)) →
  respects R (call E cfg v batches).
Proof.
  intros Hnorm Hfilter Hrotate Hemit. unfold call.
  apply respects_bind; [done | by apply respects_lift | intros out].
  apply respects_bind; [done | by apply respects_batch_loop | intros ts].
  apply respects_bind; [done | apply Hrotate | intros _].
  apply respects_bind; [done | | intros _].
  - apply respects_save_stage; [done|]. intros e [He | He]; apply Hemit; tauto.
  - apply (respects_after_save R E cfg v out).
    intros e [He | He]; apply Hemit; tauto.
Qed.

(** ** Filtering: the division by the sampling interval *)

(** X1. With [apply_filter] set and exactly one cutoff set, a trace whose
    sampling interval is zero makes the Nyquist test of lines 95 and 99
    raise [ZeroDivisionError]; no filter is called and the trace stays as
    it is. *)
Theorem zero_deltat_single_cutoff (E : Env) (cfg : Config) (v : Viewer)
    (r : ref) (w : World) :
  apply_filter cfg = true →
  (deltat (heap w !!! r) =? 0) = true →
  (is_Some (lowpass v) ∧ highpass v = None)
  ∨ (lowpass v = None ∧ is_Some (highpass v)) →
  filter_trace E cfg v r w = (Raise ZeroDivisionError, w).
Proof.
  intros Hon Hzero Hone. unfold filter_trace. rewrite Hon.
  destruct Hone as [[[lp ->] ->] | [-> [hp ->]]];
    unfold mbind, M_bind, get_trace, lift, py_div; by rewrite Hzero.
Qed.

Lemma zero_deltat_single_cutoff_witness :
  filter_trace Sample.env Sample.cfg Sample.lowpass_2 4%nat
    (mkWorld Edge.store [])
  = (Raise ZeroDivisionError, mkWorld Edge.store []).
Proof.
  apply (zero_deltat_single_cutoff Sample.env Sample.cfg Sample.lowpass_2
           4%nat (mkWorld Edge.store [])).
  - reflexivity.
  - vm_compute. reflexivity.
  - left. split; [by eexists | reflexivity].
Defined.

(** ** Failures while the batches are conditioned *)

Lemma adds_filter_trace (Q : event → Prop) (E : Env) (cfg : Config)
    (v : Viewer) (r : ref) :
  (∀ c, Q (EvFilter r c)) → respects (adds Q) (filter_trace E cfg v r).
Proof.
  intros HQ. apply respects_filter_trace; [apply _|].
  intros c. by apply adds_invoke_filter.
Qed.

Lemma batch_loop_only_filters (E : Env) (cfg : Config) (v : Viewer)
    (batches : list (list ref)) (ts : option (list ref)) :
  respects (adds is_filter_event) (batch_loop E cfg v batches ts).
Proof.
  apply respects_batch_loop; [apply _ | |].
  - intros r. apply adds_normalize.
  - intros r. by apply adds_filter_trace.
Qed.

(** X2. When the conditioning of a trace raises (a filter primitive
    fails, or the Nyquist test divides by zero), the call ends with that
    exception in the world the loop stopped in, and all it has done by
    then is call filters: nothing was rotated, handed to [io.save], shown
    to the user, logged or dumped. *)
Theorem conditioning_failure_stops_call (E : Env) (cfg : Config)
    (v : Viewer) (batches : list (list ref)) (h : gmap ref Trace)
    (out : string) (e : exn) (w1 : World) :
  output_filename E "Template for output files"
    (default_output_filename (tinc cfg) (format cfg)) = Ok out →
  batch_loop E cfg v batches None (mkWorld h []) = (Raise e, w1) →
  run_call E cfg v batches h = (Raise e, w1)
  ∧ ∀ ev, ev ∈ trail w1 → is_filter_event ev.
Proof.
  intros Hout Hb. split.
  - by rewrite call_run_after, Hout, Hb.
  - intros ev Hev.
    pose proof (batch_loop_only_filters E cfg v batches None (mkWorld h []))
      as Hadds.
    rewrite Hb in Hadds. cbn [snd] in Hadds.
    destruct (Hadds ev Hev) as [Hnil | HQ]; [|done].
    by apply elem_of_nil in Hnil.
Qed.

Lemma conditioning_failure_stops_call_witness :
  let w1 := (batch_loop Sample.env Sample.cfg Sample.lowpass_2
               [[3; 4]%nat] None (mkWorld Edge.store [])).2 in
  run_call Sample.env Sample.cfg Sample.lowpass_2 [[3; 4]%nat] Edge.store
    = (Raise ZeroDivisionError, w1)
  ∧ ∀ ev, ev ∈ trail w1 → is_filter_event ev.
Proof.
  apply (conditioning_failure_stops_call Sample.env Sample.cfg
           Sample.lowpass_2 [[3; 4]%nat] Edge.store
           "trace_%n.%s.%l.%c.mseed" ZeroDivisionError).
  - reflexivity.
  - vm_compute. reflexivity.
Defined.

(** ** A call without filters and rotation *)

Lemma filter_trace_off (E : Env) (cfg : Config) (v : Viewer) (r : ref) :
  apply_filter cfg = false → filter_trace E cfg v r = mret tt.
Proof. intros Hoff. unfold filter_trace. by rewrite Hoff. Qed.

Lemma rotate_stage_off (E : Env) (cfg : Config) (v : Viewer)
    (ts : option (list ref)) :
  apply_filter cfg = false → rotate_stage E cfg v ts = mret tt.
Proof.
  intros Hoff. unfold rotate_stage. by rewrite Hoff, andb_false_r.
Qed.

Lemma same_heap_normalize_other (cfg : Config) (r : ref) :
  format cfg ≠ "mseed" → respects same_heap (normalize cfg r).
Proof.
  intros Hfmt w r'. rewrite normalize_run. cbn [snd heap].
  unfold normalize_codes.
  destruct (String.eqb_spec (format cfg) "mseed") as [Heq | _]; [done|].
  destruct (decide (r' = r)) as [-> | Hne].
  - by rewrite lookup_total_insert_eq.
  - by rewrite lookup_total_insert_ne.
Qed.

Lemma call_off_same_signal (E : Env) (cfg : Config) (v : Viewer)
    (batches : list (list ref)) :
  apply_filter cfg = false → respects same_signal (call E cfg v batches).
Proof.
  intros Hoff. apply respects_call; [apply _ | | | |].
  - apply same_signal_normalize.
  - intros r. rewrite filter_trace_off by done. apply respects_ret; apply _.
  - intros ts. rewrite rotate_stage_off by done. apply respects_ret; apply _.
  - intros e _. apply same_signal_emit.
Qed.

Lemma call_off_no_processing (E : Env) (cfg : Config) (v : Viewer)
    (batches : list (list ref)) :
  apply_filter cfg = false →
  respects (adds (λ e, ¬ is_filter_event e ∧ ¬ is_rotate_event e))
    (call E cfg v batches).
Proof.
  intros Hoff. apply respects_call; [apply _ | | | |].
  - intros r. apply adds_normalize.
  - intros r. rewrite filter_trace_off by done. apply respects_ret; apply _.
  - intros ts. rewrite rotate_stage_off by done. apply respects_ret; apply _.
  - intros e He. apply adds_emit. destruct e; cbn in *; tauto.
Qed.

Lemma call_off_same_heap (E : Env) (cfg : Config) (v : Viewer)
    (batches : list (list ref)) :
  apply_filter cfg = false → format cfg ≠ "mseed" →
  respects same_heap (call E cfg v batches).
Proof.
  intros Hoff Hfmt. apply respects_call; [apply _ | | | |].
  - intros r. by apply same_heap_normalize_other.
  - intros r. rewrite filter_trace_off by done. apply respects_ret; apply _.
  - intros ts. rewrite rotate_stage_off by done. apply respects_ret; apply _.
  - intros e _. apply same_heap_emit.
Qed.

(** X3. With [apply_filter] off, a call changes no sample, no sampling
    interval and no start time of any trace, calls no filter and rotates
    nothing, whatever the cutoffs and the rotation angle of the viewer
    are; if moreover the format is not [mseed], no trace is changed at
    all. *)
Theorem raw_export_keeps_traces (E : Env) (cfg : Config) (v : Viewer)
    (batches : list (list ref)) (h : gmap ref Trace) :
  apply_filter cfg = false →
  let res := run_call E cfg v batches h in
  (∀ r, ydata (heap res.2 !!! r) = ydata (h !!! r)
        ∧ deltat (heap res.2 !!! r) = deltat (h !!! r)
        ∧ tmin (heap res.2 !!! r) = tmin (h !!! r))
  ∧ (∀ ev, ev ∈ trail res.2 → ¬ is_filter_event ev ∧ ¬ is_rotate_event ev)
  ∧ (format cfg ≠ "mseed" → ∀ r, heap res.2 !!! r = h !!! r).
Proof.
  intros Hoff res. unfold res, run_call. split_and!.
  - by apply (call_off_same_signal E cfg v batches).
  - intros ev Hev.
    destruct (call_off_no_processing E cfg v batches Hoff (mkWorld h [])
                ev Hev) as [Hnil | HQ]; [|done].
    by apply elem_of_nil in Hnil.
  - intros Hfmt. by apply (call_off_same_heap E cfg v batches).
Qed.

Lemma raw_export_keeps_traces_witness :
  let res := run_call Sample.env Edge.cfg_raw Sample.turn_and_lowpass
               Sample.two_batches Sample.store in
  (∀ r, ydata (heap res.2 !!! r) = ydata (Sample.store !!! r)
        ∧ deltat (heap res.2 !!! r) = deltat (Sample.store !!! r)
        ∧ tmin (heap res.2 !!! r) = tmin (Sample.store !!! r))
  ∧ (∀ ev, ev ∈ trail res.2 → ¬ is_filter_event ev ∧ ¬ is_rotate_event ev)
  ∧ (format Edge.cfg_raw ≠ "mseed" →
     ∀ r, heap res.2 !!! r = Sample.store !!! r).
Proof.
  apply (raw_export_keeps_traces Sample.env Edge.cfg_raw
           Sample.turn_and_lowpass Sample.two_batches Sample.store).
  reflexivity.
Defined.

(** ** What is handed to [io.save] *)

(** Finds an event in a trail that is written out. *)
Ltac find_event :=
  repeat first [apply list_elem_of_here | apply list_elem_of_further].

Lemma rotate_stage_only_rotates (E : Env) (cfg : Config) (v : Viewer)
    (ts : option (list ref)) :
  respects (adds is_rotate_event) (rotate_stage E cfg v ts).
Proof.
  apply respects_rotate_stage; [apply _|].
  intros cphi sphi a b. by apply adds_rotate_pair.
Qed.

Lemma after_save_only_logs (E : Env) (cfg : Config) (v : Viewer)
    (out : string) :
  respects (adds (λ e, is_log_event e ∨ is_dump_event e))
    (after_save E cfg v out).
Proof.
  apply respects_after_save; [apply _|]. intros e He. by apply adds_emit.
Qed.

Lemma after_save_same_heap (E : Env) (cfg : Config) (v : Viewer)
    (out : string) :
  respects same_heap (after_save E cfg v out).
Proof.
  apply respects_after_save; [apply _|]. intros e _. apply same_heap_emit.
Qed.

(** Before the save stage the trail holds filter calls and rotations. *)
Lemma conditioned_trail (E : Env) (cfg : Config) (v : Viewer)
    (batches : list (list ref)) (h : gmap ref Trace)
    (r1 : result (option (list ref))) (w1 : World)
    (ts : option (list ref)) (r2 : result unit) (w2 : World) :
  batch_loop E cfg v batches None (mkWorld h []) = (r1, w1) →
  rotate_stage E cfg v ts w1 = (r2, w2) →
  (∀ e, e ∈ trail w1 → is_filter_event e)
  ∧ (∀ e, e ∈ trail w2 → is_filter_event e ∨ is_rotate_event e).
Proof.
  intros Hb Hr.
  pose proof (batch_loop_only_filters E cfg v batches None (mkWorld h []))
    as H1. rewrite Hb in H1. cbn [snd] in H1.
  pose proof (rotate_stage_only_rotates E cfg v ts w1) as H2.
  rewrite Hr in H2. cbn [snd] in H2.
  assert (Hw1 : ∀ e, e ∈ trail w1 → is_filter_event e).
  { intros e He. destruct (H1 e He) as [Hnil | HQ]; [|done].
    by apply elem_of_nil in Hnil. }
  split; [exact Hw1|]. intros e He.
  destruct (H2 e He) as [He1 | HQ]; [left; by apply Hw1 | by right].
Qed.

(** Where an invocation of [io.save] in the trail of a run comes from. *)
Lemma call_save_origin (E : Env) (cfg : Config) (v : Viewer)
    (batches : list (list ref)) (h : gmap ref Trace)
    (ts : list ref) (vals : list Trace) (fn fmt : string) (ow : bool) :
  EvSave ts vals fn fmt ow ∈ trail (run_call E cfg v batches h).2 →
  ∃ w1 w2,
    output_filename E "Template for output files"
      (default_output_filename (tinc cfg) (format cfg)) = Ok fn
    ∧ batch_loop E cfg v batches None (mkWorld h []) = (Ok (Some ts), w1)
    ∧ rotate_stage E cfg v (Some ts) w1 = (Ok tt, w2)
    ∧ vals = (λ r, heap w2 !!! r) <$> ts
    ∧ fmt = format cfg ∧ ow = true
    ∧ same_heap w2 (run_call E cfg v batches h).2
    ∧ (run_call E cfg v batches h).1 =
        match io_save E vals fn fmt ow with
        | Some d => Raise (SnufflingCallFailed d)
        | None =>
            (after_save E cfg v fn
               (mkWorld (heap w2)
                  (trail w2 ++ [EvSave ts vals fn fmt ow]))).1
        end.
Proof.
  apply (call_stages E cfg v batches h (λ x,
    EvSave ts vals fn fmt ow ∈ trail x.2 →
    ∃ w1 w2,
      output_filename E "Template for output files"
        (default_output_filename (tinc cfg) (format cfg)) = Ok fn
      ∧ batch_loop E cfg v batches None (mkWorld h []) = (Ok (Some ts), w1)
      ∧ rotate_stage E cfg v (Some ts) w1 = (Ok tt, w2)
      ∧ vals = (λ r, heap w2 !!! r) <$> ts
      ∧ fmt = format cfg ∧ ow = true
      ∧ same_heap w2 x.2
      ∧ x.1 = match io_save E vals fn fmt ow with
              | Some d => Raise (SnufflingCallFailed d)
              | None =>
                  (after_save E cfg v fn
                     (mkWorld (heap w2)
                        (trail w2 ++ [EvSave ts vals fn fmt ow]))).1
              end)).
  - intros e _ Hin. by apply elem_of_nil in Hin.
  - intros out e w1 _ Hb Hin. cbn [snd] in Hin.
    destruct (conditioned_trail E cfg v batches h _ w1 None _ _ Hb
                (surjective_pairing _)) as [Hw1 _].
    by apply Hw1 in Hin.
  - intros out l w1 e w2 _ Hb Hr Hin. cbn [snd] in Hin.
    destruct (conditioned_trail E cfg v batches h _ w1 l _ w2 Hb Hr)
      as [_ Hw2].
    apply Hw2 in Hin. by destruct Hin.
  - intros out l w1 w2 e w3 Hout Hb Hr Hs Hin. cbn [snd] in Hin.
    destruct (conditioned_trail E cfg v batches h _ w1 l _ w2 Hb Hr)
      as [_ Hw2].
    destruct l as [l|].
    2: { rewrite save_stage_unbound in Hs. injection Hs as _ <-.
         apply Hw2 in Hin. by destruct Hin. }
    rewrite save_stage_run in Hs.
    destruct (io_save E ((λ r, heap w2 !!! r) <$> l) out (format cfg) true)
      as [d|] eqn:Hio; [|done].
    injection Hs as <- <-. cbn [trail] in Hin.
    apply elem_of_app in Hin as [Hin | Hin].
    { apply Hw2 in Hin. by destruct Hin. }
    apply elem_of_cons in Hin as [Hin | Hin].
    2: { by apply list_elem_of_singleton in Hin. }
    injection Hin as -> -> -> -> ->.
    exists w1, w2. rewrite Hio. split_and!; try done.
  - intros out l w1 w2 w3 Hout Hb Hr Hs Hin.
    destruct (conditioned_trail E cfg v batches h _ w1 l _ w2 Hb Hr)
      as [_ Hw2].
    destruct l as [l|]; [|by rewrite save_stage_unbound in Hs].
    rewrite save_stage_run in Hs.
    destruct (io_save E ((λ r, heap w2 !!! r) <$> l) out (format cfg) true)
      as [d|] eqn:Hio; [done|].
    injection Hs as <-.
    apply (after_save_only_logs E cfg v out) in Hin.
    destruct Hin as [Hin | Hin]; [|by destruct Hin].
    cbn [trail] in Hin. apply elem_of_app in Hin as [Hin | Hin].
    { apply Hw2 in Hin. by destruct Hin. }
    apply list_elem_of_singleton in Hin.
    injection Hin as -> -> -> -> ->.
    exists w1, w2. rewrite Hio. split_and!; try done.
    intros r. by rewrite (after_save_same_heap E cfg v out _ r).
Qed.

Lemma fit_kept_filter_trace (E : Env) (cfg : Config) (v : Viewer) (r : ref) :
  respects fit_kept (filter_trace E cfg v r).
Proof.
  apply respects_filter_trace; [apply _|]. intros c.
  apply (respects_weaken same_codes); [apply same_codes_fit_kept|].
  apply same_codes_invoke_filter.
Qed.

Lemma fit_kept_rotate_stage (E : Env) (cfg : Config) (v : Viewer)
    (ts : option (list ref)) :
  respects fit_kept (rotate_stage E cfg v ts).
Proof.
  apply respects_rotate_stage; [apply _|]. intros cphi sphi a b.
  apply (respects_weaken same_codes); [apply same_codes_fit_kept|].
  apply same_codes_rotate_pair.
Qed.

Lemma trace_loop_fits (E : Env) (cfg : Config) (v : Viewer)
    (trs acc l : list ref) (w w' : World) :
  format cfg = "mseed" →
  trace_loop E cfg v trs acc w = (Ok l, w') →
  ∀ r, r ∈ trs → codes_fit (heap w' !!! r).
Proof.
  intros Hfmt. revert acc w. induction trs as [|tr trs IH]; intros acc w.
  - intros _ r Hr. by apply elem_of_nil in Hr.
  - cbn [trace_loop]. unfold mbind at 1, M_bind at 1.
    rewrite normalize_run.
    unfold mbind at 1, M_bind at 1.
    pose proof (fit_kept_filter_trace E cfg v tr
      (mkWorld (<[tr := normalize_codes (format cfg) (heap w !!! tr)]> (heap w))
               (trail w))) as Hkept1.
    destruct (filter_trace E cfg v tr _) as [[[]|e] wb]; [|done].
    cbn [snd heap] in Hkept1. intros Hloop r Hr.
    apply elem_of_cons in Hr as [-> | Hr]; [|by eapply IH].
    pose proof (respects_trace_loop fit_kept E cfg v trs (acc ++ [tr])
      (fit_kept_normalize cfg) (fit_kept_filter_trace E cfg v) wb) as Hkept2.
    rewrite Hloop in Hkept2. cbn [snd] in Hkept2.
    apply Hkept2, Hkept1. cbn [heap]. rewrite lookup_total_insert_eq.
    unfold normalize_codes. rewrite Hfmt. apply truncate_codes_fit.
Qed.

Lemma batch_loop_fits (E : Env) (cfg : Config) (v : Viewer)
    (batches : list (list ref)) (ts0 : option (list ref)) (ts : list ref)
    (w w' : World) :
  format cfg = "mseed" →
  batch_loop E cfg v batches ts0 w = (Ok (Some ts), w') →
  (∀ l, ts0 = Some l → ∀ r, r ∈ l → codes_fit (heap w !!! r)) →
  ∀ r, r ∈ ts → codes_fit (heap w' !!! r).
Proof.
  intros Hfmt. revert ts0 w.
  induction batches as [|trs batches IH]; intros ts0 w.
  - intros [= -> ->] Hts0. by apply Hts0.
  - cbn [batch_loop]. unfold mbind at 1, M_bind at 1.
    destruct (trace_loop E cfg v trs [] w) as [[l|e] w1] eqn:Hl; [|done].
    intros Hb _. apply (IH (Some l) w1 Hb).
    intros l' [= <-].
    pose proof (trace_loop_result _ _ _ _ _ _ _ _ Hl) as Hres.
    cbn [app] in Hres. subst l.
    by apply (trace_loop_fits E cfg v trs [] trs w w1).
Qed.

Lemma conditioned_batch_fits (E : Env) (cfg : Config) (v : Viewer)
    (batches : list (list ref)) (h : gmap ref Trace) (ts : list ref)
    (w1 w2 : World) :
  format cfg = "mseed" →
  batch_loop E cfg v batches None (mkWorld h []) = (Ok (Some ts), w1) →
  rotate_stage E cfg v (Some ts) w1 = (Ok tt, w2) →
  Forall codes_fit ((λ r, heap w2 !!! r) <$> ts).
Proof.
  intros Hfmt Hb Hr.
  apply Forall_fmap, Forall_forall. intros r Hr'. cbn.
  pose proof (fit_kept_rotate_stage E cfg v (Some ts) w1) as Hkept.
  rewrite Hr in Hkept. cbn [snd] in Hkept. apply Hkept.
  apply (batch_loop_fits E cfg v batches None ts (mkWorld h []) w1);
    [done | done | done | done].
Qed.

(** X4. When the format is [mseed], every trace handed to [io.save] has a
    network code of at most 2, a station code of at most 5, a location code
    of at most 2 and a channel code of at most 3 characters: neither the
    filters nor the rotation that run after the truncation undo it. *)
Theorem saved_codes_fit (E : Env) (cfg : Config) (v : Viewer)
    (batches : list (list ref)) (h : gmap ref Trace)
    (ts : list ref) (vals : list Trace) (fn fmt : string) (ow : bool) :
  format cfg = "mseed" →
  EvSave ts vals fn fmt ow ∈ trail (run_call E cfg v batches h).2 →
  Forall codes_fit vals.
Proof.
  intros Hfmt Hin.
  destruct (call_save_origin E cfg v batches h ts vals fn fmt ow Hin)
    as (w1 & w2 & _ & Hb & Hr & -> & _).
  by apply (conditioned_batch_fits E cfg v batches h ts w1 w2).
Qed.

Lemma saved_codes_fit_witness :
  Forall codes_fit
    [mkTrace "AB" "STATI" "LO" "CHA" lit_0_01 0 (Float64 [0.5])].
Proof.
  apply (saved_codes_fit Sample.env Sample.cfg Sample.lowpass_2
           [[6]%nat] Edge.store_long [6%nat]
           [mkTrace "AB" "STATI" "LO" "CHA" lit_0_01 0 (Float64 [0.5])]
           "trace_%n.%s.%l.%c.mseed" "mseed" true).
  - reflexivity.
  - vm_compute. find_event.
Defined.

(** X5. Every invocation of [io.save] in a run is made with the last batch
    of the chopper, the file name the dialog returned, the format of the
    configuration and [overwrite=True], and the traces it is given are the
    traces as the call leaves them: nothing touches a trace once [io.save]
    has been called. *)
Theorem save_event_spec (E : Env) (cfg : Config) (v : Viewer)
    (batches : list (list ref)) (h : gmap ref Trace)
    (ts : list ref) (vals : list Trace) (fn fmt : string) (ow : bool) :
  EvSave ts vals fn fmt ow ∈ trail (run_call E cfg v batches h).2 →
  final_batch batches = Some ts
  ∧ output_filename E "Template for output files"
      (default_output_filename (tinc cfg) (format cfg)) = Ok fn
  ∧ fmt = format cfg ∧ ow = true
  ∧ vals = (λ r, heap (run_call E cfg v batches h).2 !!! r) <$> ts.
Proof.
  intros Hin.
  destruct (call_save_origin E cfg v batches h ts vals fn fmt ow Hin)
    as (w1 & w2 & Hout & Hb & Hr & -> & -> & -> & Hheap & _).
  split_and!; try done.
  - apply batch_loop_result in Hb.
    by destruct (final_batch batches) as [b|]; [injection Hb as ->|].
  - apply list_fmap_ext. intros i r _. by rewrite Hheap.
Qed.

Lemma save_event_spec_witness :
  let res := run_call Sample.env Sample.cfg Sample.turn_and_lowpass
               Sample.two_batches Sample.store in
  final_batch Sample.two_batches = Some [2%nat]
  ∧ output_filename Sample.env "Template for output files"
      (default_output_filename (tinc Sample.cfg) (format Sample.cfg))
    = Ok "trace_%n.%s.%l.%c.mseed"
  ∧ "mseed" = format Sample.cfg ∧ true = true
  ∧ [mkTrace "XX" "AAA" "" "BHE" lit_0_01 0 (Float64 [2.5; 3])]
    = (λ r, heap res.2 !!! r) <$> [2%nat].
Proof.
  apply (save_event_spec Sample.env Sample.cfg Sample.turn_and_lowpass
           Sample.two_batches Sample.store [2%nat]
           [mkTrace "XX" "AAA" "" "BHE" lit_0_01 0 (Float64 [2.5; 3])]
           "trace_%n.%s.%l.%c.mseed" "mseed" true).
  vm_compute. find_event.
Defined.

(** ** After the save *)

Lemma after_save_run (E : Env) (cfg : Config) (v : Viewer) (out : string)
    (w : World) :
  after_save E cfg v out w =
    if save_stations cfg then
      match output_filename E "Save Stations" "stations.pf" with
      | Ok fn =>
          (Ok tt,
           mkWorld (heap w)
             (trail w ++ [EvLogInfo "saved waveforms to %s" out;
                          EvDumpStations (stations v) fn;
                          EvLogInfo "saved stations to %s" fn]))
      | Raise e =>
          (Raise e,
           mkWorld (heap w)
             (trail w ++ [EvLogInfo "saved waveforms to %s" out]))
      end
    else
      (Ok tt,
       mkWorld (heap w) (trail w ++ [EvLogInfo "saved waveforms to %s" out])).
Proof.
  unfold after_save, mbind, M_bind, emit, lift. cbn [heap trail].
  destruct (save_stations cfg); [|done].
  destruct (output_filename E "Save Stations" "stations.pf"); [|done].
  cbn [heap trail]. by rewrite <- !app_assoc.
Qed.

Lemma saves_none (t : list event) :
  (∀ e, e ∈ t → is_filter_event e ∨ is_rotate_event e) → saves t = [].
Proof.
  intros Hall. induction t as [|e t IH]; [done|].
  unfold saves. cbn [List.filter].
  destruct (Hall e (list_elem_of_here _ _)) as [He | He]; destruct e; try done;
    apply IH; intros e' He'; apply Hall; by apply list_elem_of_further.
Qed.

(** X6. A call that returns normally has invoked [io.save] exactly once,
    that invocation did not fail, and the saved file name template was
    logged. *)
Theorem normal_return_means_saved (E : Env) (cfg : Config) (v : Viewer)
    (batches : list (list ref)) (h : gmap ref Trace) :
  (run_call E cfg v batches h).1 = Ok tt →
  ∃ ts vals fn,
    saves (trail (run_call E cfg v batches h).2)
      = [EvSave ts vals fn (format cfg) true]
    ∧ io_save E vals fn (format cfg) true = None
    ∧ EvLogInfo "saved waveforms to %s" fn
        ∈ trail (run_call E cfg v batches h).2.
Proof.
  apply (call_stages E cfg v batches h (λ x,
    x.1 = Ok tt →
    ∃ ts vals fn,
      saves (trail x.2) = [EvSave ts vals fn (format cfg) true]
      ∧ io_save E vals fn (format cfg) true = None
      ∧ EvLogInfo "saved waveforms to %s" fn ∈ trail x.2)); try done.
  intros out l w1 w2 w3 _ Hb Hr Hs Hok.
  destruct (conditioned_trail E cfg v batches h _ w1 l _ w2 Hb Hr)
    as [_ Hw2].
  destruct l as [l|]; [|by rewrite save_stage_unbound in Hs].
  rewrite save_stage_run in Hs.
  destruct (io_save E ((λ r, heap w2 !!! r) <$> l) out (format cfg) true)
    as [d|] eqn:Hio; [done|].
  injection Hs as <-.
  exists l, ((λ r, heap w2 !!! r) <$> l), out. split_and!; [|done|].
  - pose proof (quiet_after_save E cfg v out
      (mkWorld (heap w2)
         (trail w2 ++ [EvSave l ((λ r, heap w2 !!! r) <$> l) out
                         (format cfg) true]))) as Hq.
    change (saves (trail (after_save E cfg v out
      (mkWorld (heap w2)
         (trail w2 ++ [EvSave l ((λ r, heap w2 !!! r) <$> l) out
                         (format cfg) true]))).2)
      = [EvSave l ((λ r, heap w2 !!! r) <$> l) out (format cfg) true]).
    unfold after_save. rewrite Hq. cbn [trail].
    by rewrite saves_app, (saves_none _ Hw2).
  - rewrite after_save_run. cbn [heap trail].
    destruct (save_stations cfg);
      [destruct (output_filename E "Save Stations" "stations.pf")|];
      cbn [snd trail]; apply elem_of_app; right; apply list_elem_of_here.
Qed.

Lemma normal_return_means_saved_witness :
  ∃ ts vals fn,
    saves (trail (run_call Sample.env Sample.cfg Sample.quarter_turn
                    Sample.two_batches Sample.store).2)
      = [EvSave ts vals fn (format Sample.cfg) true]
    ∧ io_save Sample.env vals fn (format Sample.cfg) true = None
    ∧ EvLogInfo "saved waveforms to %s" fn
        ∈ trail (run_call Sample.env Sample.cfg Sample.quarter_turn
                   Sample.two_batches Sample.store).2.
Proof.
  apply (normal_return_means_saved Sample.env Sample.cfg Sample.quarter_turn
           Sample.two_batches Sample.store).
  reflexivity.
Defined.

(** X7. The stations of the viewer are dumped if and only if
    [save_stations] is set, [io.save] was invoked and did not fail, and the
    second file dialog returned a name; they are then dumped under that
    name. A failed or missing save, or a cancelled dialog, means no
    dump. *)
Theorem station_dump_iff (E : Env) (cfg : Config) (v : Viewer)
    (batches : list (list ref)) (h : gmap ref Trace)
    (sts : list string) (fn : string) :
  EvDumpStations sts fn ∈ trail (run_call E cfg v batches h).2
  ↔ save_stations cfg = true
    ∧ sts = stations v
    ∧ output_filename E "Save Stations" "stations.pf" = Ok fn
    ∧ ∃ ts vals out,
        EvSave ts vals out (format cfg) true
          ∈ trail (run_call E cfg v batches h).2
        ∧ io_save E vals out (format cfg) true = None.
Proof.
  split.
  - apply (call_stages E cfg v batches h (λ x,
      EvDumpStations sts fn ∈ trail x.2 →
      save_stations cfg = true
      ∧ sts = stations v
      ∧ output_filename E "Save Stations" "stations.pf" = Ok fn
      ∧ ∃ ts vals out,
          EvSave ts vals out (format cfg) true ∈ trail x.2
          ∧ io_save E vals out (format cfg) true = None)).
    + intros e _ Hin. by apply elem_of_nil in Hin.
    + intros out e w1 _ Hb Hin. cbn [snd] in Hin.
      destruct (conditioned_trail E cfg v batches h _ w1 None _ _ Hb
                  (surjective_pairing _)) as [Hw1 _].
      by apply Hw1 in Hin.
    + intros out l w1 e w2 _ Hb Hr Hin. cbn [snd] in Hin.
      destruct (conditioned_trail E cfg v batches h _ w1 l _ w2 Hb Hr)
        as [_ Hw2].
      apply Hw2 in Hin. by destruct Hin.
    + intros out l w1 w2 e w3 _ Hb Hr Hs Hin. cbn [snd] in Hin.
      destruct (conditioned_trail E cfg v batches h _ w1 l _ w2 Hb Hr)
        as [_ Hw2].
      destruct l as [l|].
      2: { rewrite save_stage_unbound in Hs. injection Hs as _ <-.
           apply Hw2 in Hin. by destruct Hin. }
      rewrite save_stage_run in Hs.
      destruct (io_save E ((λ r, heap w2 !!! r) <$> l) out (format cfg) true)
        as [d|]; [|done].
      injection Hs as _ <-. cbn [trail] in Hin.
      apply elem_of_app in Hin as [Hin | Hin].
      { apply Hw2 in Hin. by destruct Hin. }
      apply elem_of_cons in Hin as [Hin | Hin]; [done|].
      by apply list_elem_of_singleton in Hin.
    + intros out l w1 w2 w3 _ Hb Hr Hs.
      destruct (conditioned_trail E cfg v batches h _ w1 l _ w2 Hb Hr)
        as [_ Hw2].
      destruct l as [l|]; [|by rewrite save_stage_unbound in Hs].
      rewrite save_stage_run in Hs.
      destruct (io_save E ((λ r, heap w2 !!! r) <$> l) out (format cfg) true)
        as [d|] eqn:Hio; [done|].
      injection Hs as <-. rewrite after_save_run. cbn [heap trail].
      destruct (save_stations cfg).
      2: { cbn [snd trail]. intros Hin.
           apply elem_of_app in Hin as [Hin | Hin].
           - apply elem_of_app in Hin as [Hin | Hin].
             + apply Hw2 in Hin. by destruct Hin.
             + by apply list_elem_of_singleton in Hin.
           - by apply list_elem_of_singleton in Hin. }
      destruct (output_filename E "Save Stations" "stations.pf") as [fn'|e].
      2: { cbn [snd trail]. intros Hin.
           apply elem_of_app in Hin as [Hin | Hin].
           - apply elem_of_app in Hin as [Hin | Hin].
             + apply Hw2 in Hin. by destruct Hin.
             + by apply list_elem_of_singleton in Hin.
           - by apply list_elem_of_singleton in Hin. }
      cbn [snd trail]. intros Hin.
      apply elem_of_app in Hin as [Hin | Hin].
      { apply elem_of_app in Hin as [Hin | Hin].
        - apply Hw2 in Hin. by destruct Hin.
        - by apply list_elem_of_singleton in Hin. }
      apply elem_of_cons in Hin as [Hin | Hin]; [done|].
      apply elem_of_cons in Hin as [Hin | Hin].
      2: { by apply list_elem_of_singleton in Hin. }
      injection Hin as -> ->. split_and!; try done.
      exists l, ((λ r, heap w2 !!! r) <$> l), out. split; [|done].
      apply elem_of_app. left. apply elem_of_app. right.
      apply list_elem_of_here.
  - intros (Hon & -> & Hdialog & ts & vals & out & Hin & Hio).
    destruct (call_save_origin E cfg v batches h ts vals out _ _ Hin)
      as (w1 & w2 & Hout & Hb & Hr & -> & _).
    rewrite call_run_after, Hout, Hb, Hr, save_stage_run, Hio,
      after_save_run, Hon, Hdialog.
    cbn [snd heap trail]. apply elem_of_app. right.
    apply list_elem_of_further, list_elem_of_here.
Qed.

(** ** Which traces are rotated *)

Lemma elem_of_rotations (a b : ref) (t : list event) :
  (a, b) ∈ rotations t ↔ EvRotate a b ∈ t.
Proof.
  unfold rotations. rewrite list_elem_of_omap. split.
  - intros (e & He & Heq). destruct e; try done. by injection Heq as -> ->.
  - intros He. by exists (EvRotate a b).
Qed.

Lemma rotate_stage_rotations (E : Env) (cfg : Config) (v : Viewer)
    (ts : option (list ref)) (w : World) (a b : ref) :
  EvRotate a b ∈ trail (rotate_stage E cfg v ts w).2 →
  EvRotate a b ∈ trail w
  ∨ rotation_gate cfg v = true
    ∧ ∃ l, ts = Some l ∧ a ∈ l ∧ b ∈ l
           ∧ is_pair (heap w !!! a) (heap w !!! b) = true.
Proof.
  unfold rotate_stage, rotation_gate.
  destruct (negb (rotate v =? 0) && apply_filter cfg); [|by left].
  destruct ts as [l|]; [|by left].
  change ((read_local "traces_save" (Some l) ≫= λ ts,
             rotate_loops (math_cos E (rotate v / 180 * math_pi))
               (math_sin E (rotate v / 180 * math_pi)) ts) w)
    with (rotate_loops (math_cos E (rotate v / 180 * math_pi))
            (math_sin E (rotate v / 180 * math_pi)) l w).
  destruct (rotate_loops_run (math_cos E (rotate v / 180 * math_pi))
              (math_sin E (rotate v / 180 * math_pi)) l w)
    as (w' & -> & _ & Htrail).
  cbn [snd]. rewrite Htrail. intros [Hin | Hin]%elem_of_app; [by left|].
  right. split; [done|]. exists l. split; [done|].
  apply list_elem_of_fmap in Hin as ([a' b'] & [= -> ->] & Hin).
  apply list_elem_of_In, filter_In in Hin as [Hprod Hpair].
  apply in_prod_iff in Hprod as [Ha Hb].
  by rewrite !list_elem_of_In.
Qed.

Lemma save_stage_no_rotation (E : Env) (cfg : Config) (out : string)
    (ts : option (list ref)) :
  respects (adds (λ e, is_save_event e ∨ is_fail_event e))
    (save_stage E cfg out ts).
Proof.
  apply respects_save_stage; [apply _|]. intros e He. by apply adds_emit.
Qed.

(** X8. Whatever the batches, both traces of every pair a call rotates
    are traces of the last batch, they are two different traces, and the
    rotation angle was not zero with [apply_filter] set: no pair is ever
    formed across two batches, and no trace of an earlier batch is
    rotated. *)
Theorem rotations_in_last_batch (E : Env) (cfg : Config) (v : Viewer)
    (batches : list (list ref)) (h : gmap ref Trace) (a b : ref) :
  (a, b) ∈ rotations (trail (run_call E cfg v batches h).2) →
  rotation_gate cfg v = true
  ∧ a ≠ b
  ∧ ∃ ts, final_batch batches = Some ts ∧ a ∈ ts ∧ b ∈ ts.
Proof.
  rewrite elem_of_rotations.
  assert (Hstage : ∀ ts w1,
    batch_loop E cfg v batches None (mkWorld h []) = (Ok ts, w1) →
    EvRotate a b ∈ trail (rotate_stage E cfg v ts w1).2 →
    rotation_gate cfg v = true
    ∧ a ≠ b
    ∧ ∃ l, final_batch batches = Some l ∧ a ∈ l ∧ b ∈ l).
  { intros ts w1 Hb Hin.
    destruct (conditioned_trail E cfg v batches h _ w1 None _ _ Hb
                (surjective_pairing _)) as [Hw1 _].
    apply rotate_stage_rotations in Hin
      as [Hin | (Hgate & l & -> & Ha & Hb' & Hpair)].
    { by apply Hw1 in Hin. }
    split; [done|]. split.
    - intros ->. by rewrite is_pair_irrefl in Hpair.
    - exists l. split; [|done]. apply batch_loop_result in Hb.
      by destruct (final_batch batches) as [l'|]; [injection Hb as ->|]. }
  apply (call_stages E cfg v batches h (λ x,
    EvRotate a b ∈ trail x.2 →
    rotation_gate cfg v = true
    ∧ a ≠ b
    ∧ ∃ ts, final_batch batches = Some ts ∧ a ∈ ts ∧ b ∈ ts)).
  - intros e _ Hin. by apply elem_of_nil in Hin.
  - intros out e w1 _ Hb Hin. cbn [snd] in Hin.
    destruct (conditioned_trail E cfg v batches h _ w1 None _ _ Hb
                (surjective_pairing _)) as [Hw1 _].
    by apply Hw1 in Hin.
  - intros out ts w1 e w2 _ Hb Hr Hin. cbn [snd] in Hin.
    apply (Hstage ts w1 Hb). by rewrite Hr.
  - intros out ts w1 w2 e w3 _ Hb Hr Hs Hin. cbn [snd] in Hin.
    apply (Hstage ts w1 Hb). rewrite Hr. cbn [snd].
    pose proof (save_stage_no_rotation E cfg out ts w2) as Hadds.
    rewrite Hs in Hadds.
    destruct (Hadds _ Hin) as [Hin' | [HQ | HQ]]; done.
  - intros out ts w1 w2 w3 _ Hb Hr Hs Hin.
    apply (Hstage ts w1 Hb). rewrite Hr. cbn [snd].
    destruct (after_save_only_logs E cfg v out w3 _ Hin)
      as [Hin3 | [HQ | HQ]]; [|done|done].
    pose proof (save_stage_no_rotation E cfg out ts w2) as Hadds.
    rewrite Hs in Hadds.
    destruct (Hadds _ Hin3) as [Hin' | [HQ | HQ]]; done.
Qed.

Lemma rotations_in_last_batch_witness :
  rotation_gate Sample.cfg Sample.quarter_turn = true
  ∧ 0%nat ≠ 2%nat
  ∧ ∃ ts, final_batch [[3]; [0; 1; 2]]%nat = Some ts
          ∧ 0%nat ∈ ts ∧ 2%nat ∈ ts.
Proof.
  apply (rotations_in_last_batch Sample.env Sample.cfg Sample.quarter_turn
           [[3]; [0; 1; 2]]%nat Sample.store 0%nat 2%nat).
  vm_compute. find_event.
Defined.

(** ** Traces the rotation leaves alone *)

Lemma rotate_inner_keeps (cphi sphi : float) (h0 : gmap ref Trace)
    (a : ref) (bs : list ref) (w : World) (r : ref) :
  same_shapes h0 (heap w) →
  (∀ b, b ∈ bs → pair_in h0 (a, b) = true → a ≠ r ∧ b ≠ r) →
  heap (rotate_inner cphi sphi bs a w).2 !!! r = heap w !!! r.
Proof.
  unfold rotate_inner. revert w. induction bs as [|b bs IH]; intros w Hw Hr.
  - done.
  - rewrite for_each_cons, rotate_test_run.
    rewrite (pair_in_shapes h0 (heap w)) by done.
    destruct (pair_in h0 (a, b)) eqn:Hpair.
    + assert (Hpair' : is_pair (heap w !!! a) (heap w !!! b) = true).
      { by rewrite <- (pair_in_shapes h0 (heap w)) in Hpair. }
      assert (Hab : a ≠ b).
      { intros ->. by rewrite is_pair_irrefl in Hpair'. }
      destruct (Hr b (list_elem_of_here _ _) Hpair) as [Hra Hrb].
      pose proof (rotate_pair_shapes cphi sphi a b w Hpair') as Hshape.
      destruct (rotate_pair_effect cphi sphi a b w Hab) as (_ & _ & Hrest).
      rewrite rotate_pair_run in Hshape, Hrest |- *.
      cbv zeta in Hshape, Hrest |- *. cbn [snd] in Hshape, Hrest.
      rewrite IH.
      * by apply Hrest.
      * by eapply same_shapes_trans.
      * intros b' Hb'. apply Hr. by apply list_elem_of_further.
    + apply IH; [done|]. intros b' Hb'. apply Hr.
      by apply list_elem_of_further.
Qed.

Lemma rotate_outer_keeps (cphi sphi : float) (h0 : gmap ref Trace)
    (outer ts : list ref) (w : World) (r : ref) :
  same_shapes h0 (heap w) →
  (∀ a b, a ∈ outer → b ∈ ts → pair_in h0 (a, b) = true → a ≠ r ∧ b ≠ r) →
  heap (for_each (rotate_inner cphi sphi ts) outer w).2 !!! r = heap w !!! r.
Proof.
  revert w. induction outer as [|a outer IH]; intros w Hw Hr; [done|].
  rewrite for_each_cons.
  destruct (rotate_inner_run cphi sphi h0 a ts w Hw)
    as (w1 & Hrun1 & Hshape1 & _).
  pose proof (rotate_inner_keeps cphi sphi h0 a ts w r Hw) as Hkeep.
  rewrite Hrun1 in Hkeep |- *. cbn [snd] in Hkeep.
  rewrite IH; [|done|].
  - apply Hkeep. intros b Hb. apply Hr; [apply list_elem_of_here | done].
  - intros a' b Ha' Hb. apply Hr; [by apply list_elem_of_further | done].
Qed.

(** X9. A trace that takes part in none of the rotations of a pass of the
    rotation loops comes out of the pass exactly as it went in, whether it
    is in the working set or not. *)
Theorem unrotated_trace_untouched (cphi sphi : float) (ts : list ref)
    (h : gmap ref Trace) (r : ref) :
  (∀ a b,
     (a, b) ∈ rotations (trail (rotate_loops cphi sphi ts (mkWorld h [])).2) →
     a ≠ r ∧ b ≠ r) →
  heap (rotate_loops cphi sphi ts (mkWorld h [])).2 !!! r = h !!! r.
Proof.
  intros Hr. unfold rotate_loops.
  rewrite (rotate_outer_keeps cphi sphi h ts ts (mkWorld h []) r).
  - done.
  - apply same_shapes_refl.
  - intros a b Ha Hb Hpair. apply Hr.
    rewrite rotate_loops_rotations.
    apply list_elem_of_In, filter_In. split; [|done].
    apply in_prod_iff. by rewrite <- !list_elem_of_In.
Qed.

Lemma unrotated_trace_untouched_witness :
  heap (rotate_loops 0 1 [0; 1; 5]%nat (mkWorld Edge.store [])).2 !!! 5%nat
  = Edge.store !!! 5%nat.
Proof.
  apply (unrotated_trace_untouched 0 1 [0; 1; 5]%nat Edge.store 5%nat).
  intros a b Hin. rewrite rotate_loops_rotations in Hin.
  vm_compute in Hin. apply list_elem_of_singleton in Hin.
  injection Hin as -> ->. split; discriminate.
Defined.

(** X10. The rotation stage, once [traces_save] is bound, never raises, and
    it leaves the codes, the sampling interval, the start time and the
    number of samples of every trace as they were: only sample values of
    rotated traces change. *)
Theorem rotation_keeps_shape (E : Env) (cfg : Config) (v : Viewer)
    (ts : list ref) (w : World) :
  (rotate_stage E cfg v (Some ts) w).1 = Ok tt
  ∧ ∀ r, shape (heap (rotate_stage E cfg v (Some ts) w).2 !!! r)
         = shape (heap w !!! r).
Proof.
  unfold rotate_stage.
  destruct (negb (rotate v =? 0) && apply_filter cfg); [|done].
  change ((read_local "traces_save" (Some ts) ≫= λ l,
             rotate_loops (math_cos E (rotate v / 180 * math_pi))
               (math_sin E (rotate v / 180 * math_pi)) l) w)
    with (rotate_loops (math_cos E (rotate v / 180 * math_pi))
            (math_sin E (rotate v / 180 * math_pi)) ts w).
  destruct (rotate_loops_run (math_cos E (rotate v / 180 * math_pi))
              (math_sin E (rotate v / 180 * math_pi)) ts w)
    as (w' & -> & Hshape & _).
  done.
Qed.

(** ** Which filters are called *)

(** X11. Every filter a call applies to a trace is the one the cutoffs of
    the viewer determine (a 2-pole bandpass from the highpass to the
    lowpass cutoff, or a 4-pole lowpass or highpass without demeaning),
    the same for all traces, and none is applied unless [apply_filter] is
    set. *)
Theorem filter_calls_uniform (E : Env) (cfg : Config) (v : Viewer)
    (batches : list (list ref)) (h : gmap ref Trace)
    (r : ref) (c : filter_call) :
  EvFilter r c ∈ trail (run_call E cfg v batches h).2 →
  apply_filter cfg = true ∧ chosen_filter v = Some c.
Proof.
  intros Hin.
  set (Q := λ e, match e with
                 | EvFilter _ c' =>
                     apply_filter cfg = true ∧ chosen_filter v = Some c'
                 | EvRotate _ _ => True
                 | _ => True
                 end).
  assert (Hfilter : ∀ r', respects (adds Q) (filter_trace E cfg v r')).
  { intros r'. unfold filter_trace.
    destruct (apply_filter cfg) eqn:Hon; [|apply respects_ret; apply _].
    unfold chosen_filter in Q.
    destruct (lowpass v) as [lp|], (highpass v) as [hp|];
      try (by apply adds_invoke_filter); try (apply respects_ret; apply _);
      (apply respects_bind; [apply _ | apply respects_get_trace; apply _ |];
       intros tr;
       apply respects_bind; [apply _ | apply respects_lift; apply _ |];
       intros nyquist;
       match goal with |- respects _ (if ?b then _ else _) => destruct b end;
       [by apply adds_invoke_filter | apply respects_ret; apply _]). }
  assert (Hcall : respects (adds Q) (call E cfg v batches)).
  { apply respects_call; [apply _ | | done | |].
    - intros r'. apply adds_normalize.
    - intros ts. apply respects_rotate_stage; [apply _|].
      intros cphi sphi a b. by apply adds_rotate_pair.
    - intros e He. apply adds_emit. unfold Q.
      destruct e; cbn in He |- *; tauto. }
  destruct (Hcall (mkWorld h []) _ Hin) as [Hnil | HQ]; [|done].
  by apply elem_of_nil in Hnil.
Qed.

Lemma filter_calls_uniform_witness :
  apply_filter Sample.cfg = true
  ∧ chosen_filter Sample.turn_and_lowpass = Some (Lowpass 4 2 false).
Proof.
  apply (filter_calls_uniform Sample.env Sample.cfg Sample.turn_and_lowpass
           Sample.two_batches Sample.store 1%nat (Lowpass 4 2 false)).
  vm_compute. find_event.
Defined.

(** ** How often a trace is filtered *)

Lemma filter_calls_app (r : ref) (t t' : list event) :
  filter_calls r (t ++ t') = filter_calls r t ++ filter_calls r t'.
Proof. apply omap_app. Qed.

#[global] Instance same_filter_calls_preorder : PreOrder same_filter_calls.
Proof.
  split.
  - by intros w r.
  - intros w1 w2 w3 H12 H23 r. by rewrite H23, H12.
Qed.

Lemma same_filter_calls_emit (e : event) :
  ¬ is_filter_event e → respects same_filter_calls (emit e).
Proof.
  intros He w r. unfold emit. cbn [snd trail].
  rewrite filter_calls_app. destruct e; try done; apply app_nil_r.
Qed.

Lemma same_filter_calls_rotate_pair (cphi sphi : float) (a b : ref) :
  respects same_filter_calls (rotate_pair cphi sphi a b).
Proof.
  intros w r. rewrite rotate_pair_run. cbn [snd trail].
  rewrite filter_calls_app. apply app_nil_r.
Qed.

Lemma trace_loop_bandpass (E : Env) (cfg : Config) (v : Viewer)
    (lp hp : float) (trs acc l : list ref) (w w' : World) :
  apply_filter cfg = true → lowpass v = Some lp → highpass v = Some hp →
  trace_loop E cfg v trs acc w = (Ok l, w') →
  ∀ r, filter_calls r (trail w')
       = filter_calls r (trail w)
         ++ replicate (occurrences r trs) (Bandpass 2 hp lp).
Proof.
  intros Hon Hlp Hhp. revert acc w.
  induction trs as [|tr trs IH]; intros acc w.
  - intros [= _ <-] r. by rewrite app_nil_r.
  - cbn [trace_loop]. unfold mbind at 1, M_bind at 1.
    rewrite normalize_run. unfold mbind at 1, M_bind at 1.
    unfold filter_trace. rewrite Hon, Hlp, Hhp, invoke_filter_run.
    cbn [heap trail].
    destruct (run_filter E (Bandpass 2 hp lp) _) as [y|e]; [|done].
    intros Hloop r. rewrite (IH _ _ Hloop r). cbn [trail].
    rewrite filter_calls_app, <- app_assoc. f_equal.
    unfold occurrences. cbn [filter_calls omap list_omap List.filter].
    rewrite (Nat.eqb_sym r tr).
    by destruct (tr =? r)%nat.
Qed.

Lemma batch_loop_bandpass (E : Env) (cfg : Config) (v : Viewer)
    (lp hp : float) (batches : list (list ref))
    (ts0 ts : option (list ref)) (w w' : World) :
  apply_filter cfg = true → lowpass v = Some lp → highpass v = Some hp →
  batch_loop E cfg v batches ts0 w = (Ok ts, w') →
  ∀ r, filter_calls r (trail w')
       = filter_calls r (trail w)
         ++ replicate (occurrences r (concat batches)) (Bandpass 2 hp lp).
Proof.
  intros Hon Hlp Hhp. revert ts0 w.
  induction batches as [|trs batches IH]; intros ts0 w.
  - intros [= _ <-] r. by rewrite app_nil_r.
  - cbn [batch_loop]. unfold mbind at 1, M_bind at 1.
    destruct (trace_loop E cfg v trs [] w) as [[l|e] w1] eqn:Hl; [|done].
    intros Hb r. rewrite (IH _ _ Hb r).
    rewrite (trace_loop_bandpass E cfg v lp hp trs [] l w w1) by done.
    rewrite <- app_assoc. f_equal. cbn [concat]. unfold occurrences.
    by rewrite List.filter_app, length_app, replicate_add.
Qed.

(** X12. With [apply_filter] set and both cutoffs set, a call that returns
    normally has applied the bandpass to every trace of every batch, once
    for each time the trace was handed out, also to the traces of batches
    that are not saved; no trace was filtered more often. *)
Theorem every_trace_bandpassed (E : Env) (cfg : Config) (v : Viewer)
    (batches : list (list ref)) (h : gmap ref Trace) (lp hp : float) :
  apply_filter cfg = true → lowpass v = Some lp → highpass v = Some hp →
  (run_call E cfg v batches h).1 = Ok tt →
  ∀ r, filter_calls r (trail (run_call E cfg v batches h).2)
       = replicate (occurrences r (concat batches)) (Bandpass 2 hp lp).
Proof.
  intros Hon Hlp Hhp.
  apply (call_stages E cfg v batches h (λ x,
    x.1 = Ok tt →
    ∀ r, filter_calls r (trail x.2)
         = replicate (occurrences r (concat batches)) (Bandpass 2 hp lp)));
    try done.
  intros out ts w1 w2 w3 _ Hb Hr Hs _ r.
  assert (Hafter : respects same_filter_calls (after_save E cfg v out)).
  { apply respects_after_save; [apply _|]. intros e He.
    apply same_filter_calls_emit. destruct e; cbn in *; tauto. }
  assert (Hsave : respects same_filter_calls (save_stage E cfg out ts)).
  { apply respects_save_stage; [apply _|]. intros e He.
    apply same_filter_calls_emit. destruct e; cbn in *; tauto. }
  assert (Hrot : respects same_filter_calls (rotate_stage E cfg v ts)).
  { apply respects_rotate_stage; [apply _|]. intros cphi sphi a b.
    apply same_filter_calls_rotate_pair. }
  specialize (Hafter w3 r). specialize (Hsave w2 r). specialize (Hrot w1 r).
  rewrite Hs in Hsave. rewrite Hr in Hrot. cbn [snd] in Hsave, Hrot.
  rewrite Hafter, Hsave, Hrot.
  by rewrite (batch_loop_bandpass E cfg v lp hp batches None ts
                (mkWorld h []) w1).
Qed.

Lemma every_trace_bandpassed_witness :
  filter_calls 2%nat
    (trail (run_call Sample.env Sample.cfg (mkViewer (Some 10) (Some 1) 0 [])
              Sample.two_batches Sample.store).2)
  = replicate (occurrences 2%nat (concat Sample.two_batches))
      (Bandpass 2 1 10).
Proof.
  apply (every_trace_bandpassed Sample.env Sample.cfg
           (mkViewer (Some 10) (Some 1) 0 []) Sample.two_batches
           Sample.store 10 1); reflexivity.
Defined.

(** ** When the user is shown a failure *)

(** X13. The call shows a failure to the user only for a failed
    [io.save]: a failure shown with the detail [d] means [io.save] was
    invoked, failed with [d], and the call ended by raising with [d].
    No other exception of a call is shown through [fail]. *)
Theorem failure_shown_only_on_save_error (E : Env) (cfg : Config)
    (v : Viewer) (batches : list (list ref)) (h : gmap ref Trace)
    (d : string) :
  EvFail d ∈ trail (run_call E cfg v batches h).2 →
  (run_call E cfg v batches h).1 = Raise (SnufflingCallFailed d)
  ∧ ∃ ts vals fn,
      EvSave ts vals fn (format cfg) true
        ∈ trail (run_call E cfg v batches h).2
      ∧ io_save E vals fn (format cfg) true = Some d.
Proof.
  apply (call_stages E cfg v batches h (λ x,
    EvFail d ∈ trail x.2 →
    x.1 = Raise (SnufflingCallFailed d)
    ∧ ∃ ts vals fn,
        EvSave ts vals fn (format cfg) true ∈ trail x.2
        ∧ io_save E vals fn (format cfg) true = Some d)).
  - intros e _ Hin. by apply elem_of_nil in Hin.
  - intros out e w1 _ Hb Hin. cbn [snd] in Hin.
    destruct (conditioned_trail E cfg v batches h _ w1 None _ _ Hb
                (surjective_pairing _)) as [Hw1 _].
    by apply Hw1 in Hin.
  - intros out l w1 e w2 _ Hb Hr Hin. cbn [snd] in Hin.
    destruct (conditioned_trail E cfg v batches h _ w1 l _ w2 Hb Hr)
      as [_ Hw2].
    apply Hw2 in Hin. by destruct Hin.
  - intros out l w1 w2 e w3 _ Hb Hr Hs Hin. cbn [snd] in Hin.
    destruct (conditioned_trail E cfg v batches h _ w1 l _ w2 Hb Hr)
      as [_ Hw2].
    destruct l as [l|].
    2: { rewrite save_stage_unbound in Hs. injection Hs as _ <-.
         apply Hw2 in Hin. by destruct Hin. }
    rewrite save_stage_run in Hs.
    destruct (io_save E ((λ r, heap w2 !!! r) <$> l) out (format cfg) true)
      as [d'|] eqn:Hio; [|done].
    injection Hs as <- <-. cbn [trail] in Hin.
    apply elem_of_app in Hin as [Hin | Hin].
    { apply Hw2 in Hin. by destruct Hin. }
    apply elem_of_cons in Hin as [Hin | Hin]; [done|].
    apply list_elem_of_singleton in Hin. injection Hin as ->.
    split; [done|].
    exists l, ((λ r, heap w2 !!! r) <$> l), out. split; [|done].
    cbn [snd trail]. apply elem_of_app. right. apply list_elem_of_here.
  - intros out l w1 w2 w3 _ Hb Hr Hs Hin.
    destruct (conditioned_trail E cfg v batches h _ w1 l _ w2 Hb Hr)
      as [_ Hw2].
    destruct l as [l|]; [|by rewrite save_stage_unbound in Hs].
    rewrite save_stage_run in Hs.
    destruct (io_save E ((λ r, heap w2 !!! r) <$> l) out (format cfg) true)
      as [d'|]; [done|].
    injection Hs as <-.
    destruct (after_save_only_logs E cfg v out _ _ Hin)
      as [Hin3 | [HQ | HQ]]; [|done|done].
    cbn [trail] in Hin3. apply elem_of_app in Hin3 as [Hin3 | Hin3].
    { apply Hw2 in Hin3. by destruct Hin3. }
    by apply list_elem_of_singleton in Hin3.
Qed.

Lemma failure_shown_only_on_save_error_witness :
  (run_call Sample.env_full_disk Sample.cfg Sample.quarter_turn
     Sample.two_batches Sample.store).1
    = Raise (SnufflingCallFailed "disk full")
  ∧ ∃ ts vals fn,
      EvSave ts vals fn (format Sample.cfg) true
        ∈ trail (run_call Sample.env_full_disk Sample.cfg
                   Sample.quarter_turn Sample.two_batches Sample.store).2
      ∧ io_save Sample.env_full_disk vals fn (format Sample.cfg) true
        = Some "disk full".
Proof.
  apply (failure_shown_only_on_save_error Sample.env_full_disk Sample.cfg
           Sample.quarter_turn Sample.two_batches Sample.store "disk full").
  vm_compute. find_event.
Defined.

(** ** The settings [setup] starts with *)

(** X14. [setup] registers the format [mseed] (one of the choices), no
    time length limit, no station dump and no filtering as the initial
    values of the four parameters [call] reads. With these values, for
    every viewer, batches and traces, a call leaves the samples and the
    timing of every trace as they are, calls no filter and rotates
    nothing, and whatever it hands to [io.save] is handed over as [mseed]
    with codes of at most 2, 5, 2 and 3 characters. *)
Theorem default_settings_export (E : Env) (v : Viewer)
    (batches : list (list ref)) (h : gmap ref Trace) :
  let cfg := mkConfig "mseed" None false false in
  let res := run_call E cfg v batches h in
  initial_config setup = Some cfg
  ∧ format cfg ∈ format_choices
  ∧ (∀ r, ydata (heap res.2 !!! r) = ydata (h !!! r)
          ∧ deltat (heap res.2 !!! r) = deltat (h !!! r)
          ∧ tmin (heap res.2 !!! r) = tmin (h !!! r))
  ∧ (∀ ev, ev ∈ trail res.2 →
           ¬ is_filter_event ev ∧ ¬ is_rotate_event ev
           ∧ ¬ is_dump_event ev)
  ∧ (∀ ts vals fn fmt ow, EvSave ts vals fn fmt ow ∈ trail res.2 →
       fmt = "mseed" ∧ Forall codes_fit vals).
Proof.
  intros cfg res. split_and!.
  - reflexivity.
  - apply list_elem_of_here.
  - by apply (call_off_same_signal E cfg v batches).
  - intros ev Hev. split_and!.
    + destruct (call_off_no_processing E cfg v batches eq_refl (mkWorld h [])
                  ev Hev) as [Hnil | HQ]; [|tauto].
      by apply elem_of_nil in Hnil.
    + destruct (call_off_no_processing E cfg v batches eq_refl (mkWorld h [])
                  ev Hev) as [Hnil | HQ]; [|tauto].
      by apply elem_of_nil in Hnil.
    + assert (Hadds : respects (adds (λ e, ¬ is_dump_event e))
                        (call E cfg v batches)).
      { unfold call.
        apply respects_bind; [apply _ | apply respects_lift; apply _ |].
        intros out.
        apply respects_bind; [apply _ | |].
        { apply respects_batch_loop; [apply _ | |].
          - intros r. apply adds_normalize.
          - intros r. apply adds_filter_trace. intros c Hd. exact Hd. }
        intros ts.
        apply respects_bind; [apply _ | |].
        { apply respects_rotate_stage; [apply _|].
          intros cphi sphi a b. apply adds_rotate_pair. intros Hd. exact Hd. }
        intros _.
        apply respects_bind; [apply _ | |].
        { apply respects_save_stage; [apply _|]. intros e He.
          apply adds_emit. destruct e; cbn in *; tauto. }
        intros _.
        apply respects_bind; [apply _ | |].
        { apply adds_emit. intros Hd. exact Hd. }
        intros _. subst cfg. cbn [save_stations].
        apply respects_ret; apply _. }
      destruct (Hadds (mkWorld h []) ev Hev) as [Hnil | HQ]; [|done].
      by apply elem_of_nil in Hnil.
  - intros ts vals fn fmt ow Hin.
    destruct (call_save_origin E cfg v batches h ts vals fn fmt ow Hin)
      as (w1 & w2 & _ & Hb & Hr & -> & -> & _).
    split; [done|].
    by apply (conditioned_batch_fits E cfg v batches h ts w1 w2).
Qed.
